(** * Red-black trees, bounded fixpoints and the backward-lemma index

    A shallow embedding of three translation units:

    - [src/boot/init/data/rbtree/basic.cpp]: the compiled [rbtree] module
      (insertion, lookup, folds, [all]/[any], [subset]);
    - [src/boot/init/fix.cpp]: the bounded fixpoint combinator [bfix];
    - [src/library/tactic/backward/backward_lemmas.cpp]: the index of
      backward-chaining lemmas.

    Runtime objects ([obj*]) are given their Lean types back: a tree node is
    an inductive type with one constructor per object tag, a boxed [uint8]
    boolean is a [bool], a Lean [nat] object is a [nat].  Reference counting
    ([inc], [dec], [is_exclusive]) only decides whether a cell is reused or
    freshly allocated and is therefore not visible in the values computed. *)

From Stdlib Require Import Bool Arith Lia Sorted.
From stdpp Require Import base option list sorting gmap strings.

(** ** Part 1: [init.data.rbtree.basic] *)

Module RBTree.

(** Object tags of a node: [0] is [leaf], [1] is [red_node], [2] is
    [black_node]; the four fields of a non-leaf cell are, in this order,
    the left child, the key, the value and the right child. *)
Inductive rbnode (K V : Type) : Type :=
| leaf
| red_node (lchild : rbnode K V) (key : K) (val : V) (rchild : rbnode K V)
| black_node (lchild : rbnode K V) (key : K) (val : V) (rchild : rbnode K V).

Arguments leaf {K V}.
Arguments red_node {K V} lchild key val rchild.
Arguments black_node {K V} lchild key val rchild.

(** The [uint8] returned by [get_color]: [red] is [0], [black] is [1]. *)
Inductive color : Type := red | black.

Section Node.
Context {K V : Type}.

Abbreviation node := (rbnode K V).

(** Modelled from the spec: [l_rbnode_get__color___main___rarg] is only
    declared in this translation unit.  The colour of a node is the colour
    of its constructor; [ins] rebalances exactly when the answer is [0],
    which is [red].  A leaf counts as black. *)
Definition l_rbnode_get__color___main___rarg (t : node) : color :=
  match t with
  | red_node _ _ _ _ => red
  | _ => black
  end.

(** Modelled from the spec: the rotation behind [balance1], only declared
    here.  It receives the two children and the entry of a red node that
    may have a red child, then the entry and the other child of the black
    parent; the rotated node is red and its two children are recoloured
    black.  Without a red-red pair the black parent is rebuilt as it was. *)
Definition balance1 (l : node) (x : K) (vx : V) (r : node)
    (y : K) (vy : V) (t : node) : node :=
  match l, r with
  | red_node l1 x1 v1 r1, _ =>
      red_node (black_node l1 x1 v1 r1) x vx (black_node r y vy t)
  | _, red_node l2 x2 v2 r2 =>
      red_node (black_node l x vx l2) x2 v2 (black_node r2 y vy t)
  | _, _ => black_node (red_node l x vx r) y vy t
  end.

(** Modelled from the spec: [l_rbnode_balance1__node___main___rarg], only
    declared here.  The first argument is the result of inserting into the
    left child, never a leaf; for a leaf the other child is returned. *)
Definition l_rbnode_balance1__node___main___rarg
    (s : node) (y : K) (vy : V) (t : node) : node :=
  match s with
  | red_node l x vx r => balance1 l x vx r y vy t
  | black_node l x vx r => balance1 l x vx r y vy t
  | leaf => t
  end.

(** Modelled from the spec: the mirror rotation behind [balance2]. *)
Definition balance2 (l : node) (x : K) (vx : V) (r : node)
    (y : K) (vy : V) (t : node) : node :=
  match l, r with
  | red_node l1 x1 v1 r1, _ =>
      red_node (black_node t y vy l1) x1 v1 (black_node r1 x vx r)
  | _, red_node l2 x2 v2 r2 =>
      red_node (black_node t y vy l) x vx (black_node l2 x2 v2 r2)
  | _, _ => black_node t y vy (red_node l x vx r)
  end.

(** Modelled from the spec: [l_rbnode_balance2__node___main___rarg], only
    declared here; the first argument is the result of inserting into the
    right child and the last one is the untouched left child. *)
Definition l_rbnode_balance2__node___main___rarg
    (s : node) (y : K) (vy : V) (t : node) : node :=
  match s with
  | red_node l x vx r => balance2 l x vx r y vy t
  | black_node l x vx r => balance2 l x vx r y vy t
  | leaf => t
  end.

(** Modelled from the spec: [l_rbnode_mk__insert__result___main___rarg],
    only declared here.  It is given the colour the root had before the
    insertion and the tree after it; the spec states that the root is
    forced black once the insertion completes, a fresh single node
    included, so a red root is repainted whatever the earlier colour. *)
Definition l_rbnode_mk__insert__result___main___rarg
    (c : color) (t : node) : node :=
  match c, t with
  | red, red_node l k v r => black_node l k v r
  | black, red_node l k v r => black_node l k v r
  | _, _ => t
  end.

(** Modelled from the spec: [l_option_to__bool___main___rarg], declared
    here and defined with [option]. *)
Definition l_option_to__bool___main___rarg {A} (o : option A) : bool :=
  match o with
  | Some _ => true
  | None => false
  end.

Section Ordered.
(** [x_0]: the comparator closure, called through [apply_2] and unboxed. *)
Variable lt : K -> K -> bool.

(** [ins]: lines 729-940.  [x_1] is the tree, [x_2] the key, [x_3] the value. *)
Fixpoint l_rbnode_ins___main___at_rbtree_insert___spec__3___rarg
    (x_1 : node) (x_2 : K) (x_3 : V) : node :=
  match x_1 with
  | leaf => red_node leaf x_2 x_3 leaf
  | red_node x_6 x_8 x_10 x_12 =>
      if negb (lt x_2 x_8) then
        if negb (lt x_8 x_2) then red_node x_6 x_2 x_3 x_12
        else red_node x_6 x_8 x_10
               (l_rbnode_ins___main___at_rbtree_insert___spec__3___rarg x_12 x_2 x_3)
      else red_node
             (l_rbnode_ins___main___at_rbtree_insert___spec__3___rarg x_6 x_2 x_3)
             x_8 x_10 x_12
  | black_node x_33 x_35 x_37 x_39 =>
      if negb (lt x_2 x_35) then
        if negb (lt x_35 x_2) then black_node x_33 x_2 x_3 x_39
        else
          match l_rbnode_get__color___main___rarg x_39 with
          | red =>
              l_rbnode_balance2__node___main___rarg
                (l_rbnode_ins___main___at_rbtree_insert___spec__3___rarg x_39 x_2 x_3)
                x_35 x_37 x_33
          | black =>
              black_node x_33 x_35 x_37
                (l_rbnode_ins___main___at_rbtree_insert___spec__3___rarg x_39 x_2 x_3)
          end
      else
        match l_rbnode_get__color___main___rarg x_33 with
        | red =>
            l_rbnode_balance1__node___main___rarg
              (l_rbnode_ins___main___at_rbtree_insert___spec__3___rarg x_33 x_2 x_3)
              x_35 x_37 x_39
        | black =>
            black_node
              (l_rbnode_ins___main___at_rbtree_insert___spec__3___rarg x_33 x_2 x_3)
              x_35 x_37 x_39
        end
  end.

(** [rbnode.insert]: lines 951-961. *)
Definition l_rbnode_insert___at_rbtree_insert___spec__2___rarg
    (x_1 : node) (x_2 : K) (x_3 : V) : node :=
  let x_5 := l_rbnode_get__color___main___rarg x_1 in
  let x_6 := l_rbnode_ins___main___at_rbtree_insert___spec__3___rarg x_1 x_2 x_3 in
  l_rbnode_mk__insert__result___main___rarg x_5 x_6.

(** [rbnode.find_core]: lines 1324-1450; the result is the stored entry. *)
Fixpoint l_rbnode_find__core___main___at_rbtree_find___spec__2___rarg
    (x_1 : node) (x_2 : K) : option (K * V) :=
  match x_1 with
  | leaf => None
  | red_node x_6 x_8 x_10 x_12 =>
      if negb (lt x_2 x_8) then
        if negb (lt x_8 x_2) then Some (x_8, x_10)
        else l_rbnode_find__core___main___at_rbtree_find___spec__2___rarg x_12 x_2
      else l_rbnode_find__core___main___at_rbtree_find___spec__2___rarg x_6 x_2
  | black_node x_38 x_40 x_42 x_44 =>
      if negb (lt x_2 x_40) then
        if negb (lt x_40 x_2) then Some (x_40, x_42)
        else l_rbnode_find__core___main___at_rbtree_find___spec__2___rarg x_44 x_2
      else l_rbnode_find__core___main___at_rbtree_find___spec__2___rarg x_38 x_2
  end.

(** [rbtree.find]: lines 1479-1514; field [0] of the entry, the stored
    key, is what is returned. *)
Definition l_rbtree_find___rarg (x_1 : node) (x_2 : K) : option K :=
  match l_rbnode_find__core___main___at_rbtree_find___spec__2___rarg x_1 x_2 with
  | None => None
  | Some x_5 => Some (fst x_5)
  end.

End Ordered.

(** [rev_fold] specialised to list construction: lines 550-578.  Only the
    key (field [1]) is consed. *)
Fixpoint l_rbnode_rev__fold___main___at_rbtree_to__list___spec__1___rarg
    (x_0 : node) (x_1 : list K) : list K :=
  match x_0 with
  | leaf => x_1
  | red_node x_2 x_4 _ x_6 | black_node x_2 x_4 _ x_6 =>
      let x_9 := l_rbnode_rev__fold___main___at_rbtree_to__list___spec__1___rarg x_6 x_1 in
      l_rbnode_rev__fold___main___at_rbtree_to__list___spec__1___rarg x_2 (x_4 :: x_9)
  end.

(** [rbtree.to_list]: lines 588-596. *)
Definition l_rbtree_to__list___rarg (x_0 : node) : list K :=
  l_rbnode_rev__fold___main___at_rbtree_to__list___spec__1___rarg x_0 [].

(** The visit order of [all] and [any] is only observable through the
    calls made to the predicate closure ([apply_1] on [x_0]); the closure
    is therefore given a state to thread, and the state after the traversal
    records the calls in the order the code makes them. *)
Section Visit.
Context {S : Type}.

(** [rbnode.all]: lines 2088-2196.  The inner repeated test on the same
    boolean is kept as compiled. *)
Fixpoint l_rbnode_all___main___at_rbtree_all___spec__1___rarg
    (x_0 : K -> S -> bool * S) (x_1 : node) (s : S) : bool * S :=
  match x_1 with
  | leaf => (true, s)
  | red_node x_5 x_7 _ x_9 | black_node x_5 x_7 _ x_9 =>
      let '(x_13, s) := x_0 x_7 s in
      if negb x_13 then
        if negb x_13 then (x_13, s)
        else l_rbnode_all___main___at_rbtree_all___spec__1___rarg x_0 x_9 s
      else
        let '(x_20, s) := l_rbnode_all___main___at_rbtree_all___spec__1___rarg x_0 x_5 s in
        if negb x_20 then (x_20, s)
        else l_rbnode_all___main___at_rbtree_all___spec__1___rarg x_0 x_9 s
  end.

(** [rbtree.all]: lines 2206-2213. *)
Definition l_rbtree_all___rarg (x_0 : node) (x_1 : K -> S -> bool * S) (s : S)
    : bool * S :=
  l_rbnode_all___main___at_rbtree_all___spec__1___rarg x_1 x_0 s.

(** [rbnode.any]: lines 2225-2333. *)
Fixpoint l_rbnode_any___main___at_rbtree_any___spec__1___rarg
    (x_0 : K -> S -> bool * S) (x_1 : node) (s : S) : bool * S :=
  match x_1 with
  | leaf => (false, s)
  | red_node x_5 x_7 _ x_9 | black_node x_5 x_7 _ x_9 =>
      let '(x_13, s) := x_0 x_7 s in
      if negb x_13 then
        let '(x_16, s) := l_rbnode_any___main___at_rbtree_any___spec__1___rarg x_0 x_5 s in
        if negb x_16 then l_rbnode_any___main___at_rbtree_any___spec__1___rarg x_0 x_9 s
        else (x_16, s)
      else
        if negb x_13 then l_rbnode_any___main___at_rbtree_any___spec__1___rarg x_0 x_9 s
        else (x_13, s)
  end.

(** [rbtree.any]: lines 2343-2350. *)
Definition l_rbtree_any___rarg (x_0 : node) (x_1 : K -> S -> bool * S) (s : S)
    : bool * S :=
  l_rbnode_any___main___at_rbtree_any___spec__1___rarg x_1 x_0 s.

End Visit.

(** A pure predicate seen as a closure that logs the key it is applied to. *)
Definition logged (p : K -> bool) : K -> list K -> bool * list K :=
  fun k log => (p k, log ++ [k]).

Section Subset.
Variable lt : K -> K -> bool.

(** [rbtree.find] as specialised for [subset] (lines 2363-2552): the same
    body as [l_rbtree_find___rarg]. *)
Definition l_rbtree_find___at_rbtree_subset___spec__1___rarg
    (x_1 : node) (x_2 : K) : option K :=
  l_rbtree_find___rarg lt x_1 x_2.

(** [rbnode.all] specialised to the membership test of [subset]: lines
    2563-2684.  [x_1] is the tree searched, [x_2] the tree traversed. *)
Fixpoint l_rbnode_all___main___at_rbtree_subset___spec__4___rarg
    (x_1 x_2 : node) : bool :=
  match x_2 with
  | leaf => true
  | red_node x_7 x_9 _ x_11 | black_node x_7 x_9 _ x_11 =>
      let x_16 := l_rbtree_find___at_rbtree_subset___spec__1___rarg x_1 x_9 in
      let x_17 := l_option_to__bool___main___rarg x_16 in
      if negb x_17 then
        if negb x_17 then x_17
        else l_rbnode_all___main___at_rbtree_subset___spec__4___rarg x_1 x_11
      else
        let x_26 := l_rbnode_all___main___at_rbtree_subset___spec__4___rarg x_1 x_7 in
        if negb x_26 then x_26
        else l_rbnode_all___main___at_rbtree_subset___spec__4___rarg x_1 x_11
  end.

(** [rbtree.subset]: lines 2695-2702; note the swapped arguments. *)
Definition l_rbtree_subset___rarg (x_1 x_2 : node) : bool :=
  l_rbnode_all___main___at_rbtree_subset___spec__4___rarg x_2 x_1.

End Subset.

(** *** Specification vocabulary *)

(** Entries in symmetric (left, node, right) order. *)
Fixpoint inorder (t : node) : list (K * V) :=
  match t with
  | leaf => []
  | red_node l k v r | black_node l k v r => inorder l ++ (k, v) :: inorder r
  end.

Definition keys (t : node) : list K := (inorder t).*1.

(** Keys in (node, left, right) order. *)
Fixpoint preorder (t : node) : list K :=
  match t with
  | leaf => []
  | red_node l k _ r | black_node l k _ r => k :: preorder l ++ preorder r
  end.

(** The prefix of a list that ends with its first element satisfying [q]
    (the whole list when there is none). *)
Fixpoint upto_first (q : K -> bool) (l : list K) : list K :=
  match l with
  | [] => []
  | x :: l' => if q x then [x] else x :: upto_first q l'
  end.

(** No red node has a red child. *)
Fixpoint red_red_free (t : node) : bool :=
  match t with
  | leaf => true
  | red_node l _ _ r =>
      match l_rbnode_get__color___main___rarg l,
            l_rbnode_get__color___main___rarg r with
      | black, black => red_red_free l && red_red_free r
      | _, _ => false
      end
  | black_node l _ _ r => red_red_free l && red_red_free r
  end.

(** The number of black nodes on each path from the root to a leaf, one
    entry per leaf, left to right. *)
Fixpoint black_counts (t : node) : list nat :=
  match t with
  | leaf => [0]
  | red_node l _ _ r => black_counts l ++ black_counts r
  | black_node l _ _ r => S <$> (black_counts l ++ black_counts r)
  end.

(** Every root-to-leaf path of [t] has exactly [n] black nodes. *)
Fixpoint black_height (n : nat) (t : node) : Prop :=
  match t with
  | leaf => n = 0
  | red_node l _ _ r => black_height n l /\ black_height n r
  | black_node l _ _ r =>
      match n with
      | 0 => False
      | S m => black_height m l /\ black_height m r
      end
  end.

(** As [red_red_free], except that the root itself may be a red node with
    a red child: the shape [ins] can return below a red node. *)
Definition red_red_free_below (t : node) : bool :=
  match t with
  | leaf => true
  | red_node l _ _ r | black_node l _ _ r => red_red_free l && red_red_free r
  end.

(** The node that [find_core] reaches for [k] gets the entry [(k, v)];
    nothing else changes and nothing is added. *)
Fixpoint replace (lt : K -> K -> bool) (t : node) (k : K) (v : V) : node :=
  match t with
  | leaf => leaf
  | red_node l y vy r =>
      if lt k y then red_node (replace lt l k v) y vy r
      else if lt y k then red_node l y vy (replace lt r k v)
      else red_node l k v r
  | black_node l y vy r =>
      if lt k y then black_node (replace lt l k v) y vy r
      else if lt y k then black_node l y vy (replace lt r k v)
      else black_node l k v r
  end.


(** Two trees with the same structure, colours and keys, whose values
    agree everywhere except possibly at nodes holding the key [k]. *)
Fixpoint same_upto (k : K) (t1 t2 : node) : Prop :=
  match t1, t2 with
  | leaf, leaf => True
  | red_node l1 y1 v1 r1, red_node l2 y2 v2 r2
  | black_node l1 y1 v1 r1, black_node l2 y2 v2 r2 =>
      same_upto k l1 l2 /\ y1 = y2 /\ (v1 = v2 \/ y1 = k) /\ same_upto k r1 r2
  | _, _ => False
  end.

(** Insertion into a list of entries sorted by key. *)
Fixpoint ins_list (lt : K -> K -> bool) (k : K) (v : V) (l : list (K * V))
    : list (K * V) :=
  match l with
  | [] => [(k, v)]
  | (y, vy) :: l' =>
      if lt k y then (k, v) :: (y, vy) :: l'
      else if lt y k then (y, vy) :: ins_list lt k v l'
      else (k, v) :: l'
  end.

(** Lookup in a list of entries sorted by key. *)
Fixpoint find_list (lt : K -> K -> bool) (k : K) (l : list (K * V))
    : option (K * V) :=
  match l with
  | [] => None
  | (y, vy) :: l' =>
      if lt k y then None
      else if lt y k then find_list lt k l'
      else Some (y, vy)
  end.

(** The comparator contract: a strict weak ordering. *)
Record strict_weak_order (lt : K -> K -> bool) : Prop := {
  swo_irrefl : forall a, lt a a = false;
  swo_trans : forall a b c, lt a b = true -> lt b c = true -> lt a c = true;
  swo_incomp : forall a b c,
    lt a b = false -> lt b a = false ->
    lt b c = false -> lt c b = false ->
    lt a c = false /\ lt c a = false
}.

(** Strictly ascending under the comparator. *)
Definition ascending (lt : K -> K -> bool) (l : list K) : Prop :=
  StronglySorted (fun a b => lt a b = true) l.

(** The search-order invariant of the data model. *)
Definition ordered (lt : K -> K -> bool) (t : node) : Prop :=
  ascending lt (keys t).

(** The trees of the data model: created empty, grown by [insert] only. *)
Inductive well_formed (lt : K -> K -> bool) : node -> Prop :=
| leaf_wff : well_formed lt leaf
| insert_wff t k v :
    well_formed lt t ->
    well_formed lt (l_rbnode_insert___at_rbtree_insert___spec__2___rarg lt t k v).

End Node.

(** [rbtree.insert]: lines 990-998; a tree of elements is a map to [unit],
    the value passed down is [box(0)]. *)
Definition l_rbtree_insert___rarg {K} (x_0 : K -> K -> bool)
    (x_1 : rbnode K unit) (x_2 : K) : rbnode K unit :=
  l_rbnode_insert___at_rbtree_insert___spec__2___rarg x_0 x_1 x_2 tt.

End RBTree.

(** ** Part 2: [init.fix] *)

Module Fix.

(** [bfix]: lines 117-144.  [x_0] is the base case, [x_1] the step, [x_2]
    the fuel (a Lean [nat]) and [x_3] the argument.  The test
    [nat_dec_eq x_2 0] and the predecessor [nat_sub x_2 1] are the two
    branches of the match; the closure [x_9] handed to the step is [bfix]
    applied to the base case, the step and the decremented fuel. *)
Fixpoint l_bfix___main___rarg {A B : Type}
    (x_0 : A -> B) (x_1 : (A -> B) -> A -> B) (x_2 : nat) (x_3 : A) : B :=
  match x_2 with
  | 0 => x_0 x_3
  | S x_7 =>
      let x_9 := l_bfix___main___rarg x_0 x_1 x_7 in
      x_1 x_9 x_3
  end.

(** [l_bfix___rarg]: lines 172-179. *)
Definition l_bfix___rarg {A B : Type}
    (x_0 : A -> B) (x_1 : (A -> B) -> A -> B) (x_2 : nat) (x_3 : A) : B :=
  l_bfix___main___rarg x_0 x_1 x_2 x_3.

(** How often the step is applied is only observable through the calls
    [apply_2(x_1, x_9, x_3)] of line 133.  To count them the two closures
    are given a counter to thread: a computation takes the number of calls
    made so far and returns its result with the number made by then. *)
Definition counted (B : Type) : Type := nat -> B * nat.

(** [bfix], lines 117-144, with the call of the step at line 133 counted;
    the base case at line 140 is not a call of the step. *)
Fixpoint bfix_counted {A B : Type}
    (x_0 : A -> counted B) (x_1 : (A -> counted B) -> A -> counted B)
    (x_2 : nat) (x_3 : A) : counted B :=
  match x_2 with
  | 0 => x_0 x_3
  | S x_7 =>
      let x_9 := bfix_counted x_0 x_1 x_7 in
      fun calls => x_1 x_9 x_3 (S calls)
  end.

(** A step that calls its continuation twice and adds the results. *)
Definition twice_step (k : nat -> counted nat) (x : nat) : counted nat :=
  fun calls =>
    let '(a, calls) := k x calls in
    let '(b, calls) := k x calls in
    (a + b, calls).

(** A step that calls its continuation once, on the predecessor: the
    factorial. *)
Definition countdown_step (k : nat -> counted nat) (x : nat) : counted nat :=
  match x with
  | 0 => fun calls => (1, calls)
  | S p => fun calls => let '(r, calls) := k p calls in (x * r, calls)
  end.

End Fix.

(** ** Part 3: [library/tactic/backward/backward_lemmas.cpp] *)

Module BackwardLemmas.

Definition name := string.

(** Modelled from the spec: the kinds of kernel expressions
    ([kernel/expr.h] is not part of these sources). *)
Inductive expr_kind : Type :=
| Var | Sort | Constant | Meta | Local | App | Lambda | Pi | Let | Macro.

(** Modelled from the spec: kernel expressions, as far as the head-symbol
    computation looks into them. *)
Inductive expr : Type :=
| mk_var (i : nat)
| mk_sort
| mk_constant (n : name)
| mk_metavar (n : name)
| mk_local (n : name)
| mk_app (f a : expr)
| mk_lambda (d b : expr)
| mk_pi (d b : expr)
| mk_let (t v b : expr)
| mk_macro.

Definition kind (e : expr) : expr_kind :=
  match e with
  | mk_var _ => Var
  | mk_sort => Sort
  | mk_constant _ => Constant
  | mk_metavar _ => Meta
  | mk_local _ => Local
  | mk_app _ _ => App
  | mk_lambda _ _ => Lambda
  | mk_pi _ _ => Pi
  | mk_let _ _ _ => Let
  | mk_macro => Macro
  end.

Definition is_pi (e : expr) : bool :=
  match e with mk_pi _ _ => true | _ => false end.

Definition is_constant (e : expr) : bool :=
  match e with mk_constant _ => true | _ => false end.

Definition is_local (e : expr) : bool :=
  match e with mk_local _ => true | _ => false end.

Definition binding_body (e : expr) : expr :=
  match e with
  | mk_pi _ b | mk_lambda _ b => b
  | _ => e
  end.

Fixpoint get_app_fn (e : expr) : expr :=
  match e with
  | mk_app f _ => get_app_fn f
  | _ => e
  end.

(** Modelled from the spec: a head index is a structural key, either a
    global constant name or a local free-variable identity. *)
Record head_index : Type := mk_head_index { hi_kind : expr_kind; hi_name : name }.

Definition head_index_of (fn : expr) : head_index :=
  mk_head_index (kind fn)
    match fn with
    | mk_constant n | mk_local n => n
    | _ => EmptyString
    end.

#[global] Instance expr_kind_eq_dec : EqDecision expr_kind.
Proof. solve_decision. Defined.

#[global] Instance expr_eq_dec : EqDecision expr.
Proof. solve_decision. Defined.

Definition expr_kind_code (k : expr_kind) : nat :=
  match k with
  | Var => 0 | Sort => 1 | Constant => 2 | Meta => 3 | Local => 4
  | App => 5 | Lambda => 6 | Pi => 7 | Let => 8 | Macro => 9
  end.

Definition expr_kind_of_code (n : nat) : expr_kind :=
  match n with
  | 0 => Var | 1 => Sort | 2 => Constant | 3 => Meta | 4 => Local
  | 5 => App | 6 => Lambda | 7 => Pi | 8 => Let | _ => Macro
  end.

#[global] Instance expr_kind_countable : Countable expr_kind.
Proof.
  apply (inj_countable' expr_kind_code expr_kind_of_code).
  intros []; reflexivity.
Defined.

#[global] Instance head_index_eq_dec : EqDecision head_index.
Proof. solve_decision. Defined.

#[global] Instance head_index_countable : Countable head_index.
Proof.
  apply (inj_countable' (fun h => (hi_kind h, hi_name h))
                        (fun p => mk_head_index p.1 p.2)).
  intros []; reflexivity.
Defined.

(** Modelled from the spec: a backward lemma identifies either a global
    declaration name or a local hypothesis expression ([gexpr]). *)
Inductive backward_lemma : Type :=
| lemma_of_name (n : name)
| lemma_of_expr (e : expr).

#[global] Instance backward_lemma_eq_dec : EqDecision backward_lemma.
Proof. solve_decision. Defined.

Definition is_universe_polymorphic (r : backward_lemma) : bool :=
  match r with lemma_of_name _ => true | lemma_of_expr _ => false end.

Definition to_name (r : backward_lemma) : name :=
  match r with lemma_of_name n => n | lemma_of_expr _ => EmptyString end.

(** The services of [type_context] and of the environment that the file
    calls; none of them is defined in these sources, so they are fields
    of the context the functions are given. *)
Record type_context : Type := {
  (** [instantiate_type_univ_params (env.get c) us] *)
  declaration_type : name -> expr;
  try_to_pi : expr -> expr;
  infer : expr -> expr;
  instantiate : expr -> expr -> expr;
  (** the local pushed for a binder, given how many were pushed before *)
  push_local_from_binding : nat -> expr -> expr;
  (** [get_attribute_instances env "intro"] *)
  intro_instances : list name;
  (** [get_attribute_instances_by_prio env "intro"], read by [get_prio] *)
  intro_prios : gmap name nat
}.

(** A trace request: the trace class and the message. *)
Definition trace_msg : Type := list string * string.

(** Outcome of a call: a value, an exception, or no answer within the
    bound on loop iterations; the trace requests made so far come along. *)
Inductive outcome (A : Type) : Type :=
| value (a : A) (log : list trace_msg)
| raised (what : string) (log : list trace_msg)
| out_of_fuel.

Arguments value {A} a log.
Arguments raised {A} what log.
Arguments out_of_fuel {A}.

Definition M (A : Type) : Type := list trace_msg -> outcome A.

Definition ret {A} (a : A) : M A := fun log => value a log.

Definition bind {A B} (m : M A) (f : A -> M B) : M B :=
  fun log =>
    match m log with
    | value a log' => f a log'
    | raised what log' => raised what log'
    | out_of_fuel => out_of_fuel
    end.

Definition lean_trace (cls : list string) (msg : string) : M unit :=
  fun log => value tt (log ++ [(cls, msg)]).

Definition throw {A} (what : string) : M A := fun log => raised what log.

Definition diverge {A} : M A := fun _ => out_of_fuel.

Notation "x <- m ;; f" := (bind m (fun x => f))
  (at level 100, m at next level, right associativity).

(** The [while (is_pi(type))] loop of [get_backward_target], lines 26-29,
    bounded by [fuel] iterations. *)
Fixpoint strip_pis (ctx : type_context) (fuel : nat) (locals : nat)
    (type : expr) : option expr :=
  if is_pi type then
    match fuel with
    | 0 => None
    | S fuel' =>
        let local := push_local_from_binding ctx locals type in
        strip_pis ctx fuel' (S locals)
          (try_to_pi ctx (instantiate ctx (binding_body type) local))
    end
  else Some type.

(** [get_backward_target] on a type: lines 24-35. *)
Definition get_backward_target (ctx : type_context) (fuel : nat) (type : expr)
    : M (option head_index) :=
  match strip_pis ctx fuel 0 type with
  | None => diverge
  | Some type =>
      let fn := get_app_fn type in
      if is_constant fn || is_local fn then ret (Some (head_index_of fn))
      else ret None
  end.

(** [get_backward_target] on a declaration name: lines 37-42. *)
Definition get_backward_target_of_name (ctx : type_context) (fuel : nat)
    (c : name) : M (option head_index) :=
  let type := try_to_pi ctx (declaration_type ctx c) in
  get_backward_target ctx fuel type.

Section Priorities.
(** The constant [LEAN_DEFAULT_PRIORITY], defined outside these sources. *)
Variable LEAN_DEFAULT_PRIORITY : nat.

(** [backward_lemma_prio_fn::operator()]: lines 52-59. *)
Definition backward_lemma_prio_fn (m_prios : gmap name nat)
    (r : backward_lemma) : nat :=
  if is_universe_polymorphic r then
    let n := to_name r in
    match m_prios !! n with
    | Some prio => prio
    | None => LEAN_DEFAULT_PRIORITY
    end
  else LEAN_DEFAULT_PRIORITY.

(** Modelled from the spec: [head_map_prio] ([library/head_map.h] is not
    part of these sources): a map from head indices to lists of lemmas,
    each list kept in descending priority order.  A new entry goes in
    front of the entries whose priority does not exceed its own. *)
Record head_map_prio : Type := {
  m_prios : gmap name nat;
  m_map : gmap head_index (list backward_lemma)
}.

Definition get_priority (m : head_map_prio) (v : backward_lemma) : nat :=
  backward_lemma_prio_fn (m_prios m) v.

Fixpoint insert_prio (m : head_map_prio) (v : backward_lemma)
    (vs : list backward_lemma) : list backward_lemma :=
  match vs with
  | [] => [v]
  | w :: ws =>
      if get_priority m w <=? get_priority m v then v :: vs
      else w :: insert_prio m v ws
  end.

Definition head_map_insert (h : head_index) (v : backward_lemma)
    (m : head_map_prio) : head_map_prio :=
  {| m_prios := m_prios m;
     m_map := <[h := insert_prio m v (default [] (m_map m !! h))]> (m_map m) |}.

(** Modelled from the spec: [erase] removes that exact entry. *)
Definition head_map_erase (h : head_index) (v : backward_lemma)
    (m : head_map_prio) : head_map_prio :=
  match m_map m !! h with
  | Some vs =>
      {| m_prios := m_prios m;
         m_map := <[h := filter (fun w => w <> v) vs]> (m_map m) |}
  | None => m
  end.

Definition head_map_find (h : head_index) (m : head_map_prio)
    : option (list backward_lemma) :=
  m_map m !! h.

Record backward_lemma_index : Type := { m_index : head_map_prio }.

Definition discard_message (c : name) : string :=
  "discarding [intro] lemma '" +:+ c +:+ "', failed to find target type" +:+
  String (Ascii.ascii_of_nat 10) EmptyString.

Definition back_chaining : list string := ["tactic"; "back_chaining"].

(** The loop of the constructor, lines 65-75: [i] counts down from the
    number of lemmas and [lemmas[i]] is read after the decrement. *)
Fixpoint index_loop (ctx : type_context) (fuel : nat) (lemmas : list name)
    (i : nat) (idx : head_map_prio) : M head_map_prio :=
  match i with
  | 0 => ret idx
  | S i =>
      match lemmas !! i with
      | None => ret idx
      | Some c =>
          target <- get_backward_target_of_name ctx fuel c ;;
          match target with
          | Some h =>
              if negb (bool_decide (hi_kind h = Constant)) then
                _ <- lean_trace back_chaining (discard_message c) ;;
                index_loop ctx fuel lemmas i idx
              else
                index_loop ctx fuel lemmas i
                  (head_map_insert h (lemma_of_name c) idx)
          | None =>
              _ <- lean_trace back_chaining (discard_message c) ;;
              index_loop ctx fuel lemmas i idx
          end
      end
  end.

(** [backward_lemma_index::backward_lemma_index]: lines 61-76. *)
Definition mk_backward_lemma_index (ctx : type_context) (fuel : nat)
    : M backward_lemma_index :=
  let m_index0 := {| m_prios := intro_prios ctx; m_map := ∅ |} in
  let lemmas := intro_instances ctx in
  let i := length lemmas in
  m <- index_loop ctx fuel lemmas i m_index0 ;;
  ret {| m_index := m |}.

(** [backward_lemma_index::insert]: lines 78-83. *)
Definition insert (ctx : type_context) (fuel : nat) (href : expr)
    (idx : backward_lemma_index) : M backward_lemma_index :=
  let href_type := infer ctx href in
  target <- get_backward_target ctx fuel href_type ;;
  match target with
  | Some h => ret {| m_index := head_map_insert h (lemma_of_expr href) (m_index idx) |}
  | None => ret idx
  end.

(** [backward_lemma_index::erase]: lines 85-90. *)
Definition erase (ctx : type_context) (fuel : nat) (href : expr)
    (idx : backward_lemma_index) : M backward_lemma_index :=
  let href_type := infer ctx href in
  target <- get_backward_target ctx fuel href_type ;;
  match target with
  | Some h => ret {| m_index := head_map_erase h (lemma_of_expr href) (m_index idx) |}
  | None => ret idx
  end.

(** [backward_lemma_index::find]: lines 92-97. *)
Definition find (idx : backward_lemma_index) (h : head_index)
    : list backward_lemma :=
  match head_map_find h (m_index idx) with
  | Some r => r
  | None => []
  end.

(** The indices a tactic can hold: built by the constructor, then extended
    and contracted with local hypotheses. *)
Inductive reachable (ctx : type_context) : backward_lemma_index -> Prop :=
| reachable_mk fuel log idx log' :
    mk_backward_lemma_index ctx fuel log = value idx log' ->
    reachable ctx idx
| reachable_insert ctx' fuel href idx log idx' log' :
    reachable ctx idx ->
    insert ctx' fuel href idx log = value idx' log' ->
    reachable ctx idx'
| reachable_erase ctx' fuel href idx log idx' log' :
    reachable ctx idx ->
    erase ctx' fuel href idx log = value idx' log' ->
    reachable ctx idx'.

(** The head under which the constructor files a declaration: the head of
    its conclusion when that is a constant, nothing otherwise. *)
Definition constant_target (ctx : type_context) (fuel : nat) (c : name)
    : option head_index :=
  match strip_pis ctx fuel 0 (try_to_pi ctx (declaration_type ctx c)) with
  | Some type =>
      let fn := get_app_fn type in
      if is_constant fn then Some (head_index_of fn) else None
  | None => None
  end.

(** The effect on the index of one declaration that has the attribute. *)
Definition index_step (ctx : type_context) (fuel : nat) (m : head_map_prio)
    (c : name) : head_map_prio :=
  match constant_target ctx fuel c with
  | Some h => head_map_insert h (lemma_of_name c) m
  | None => m
  end.

(** The trace requests for the declarations of a list that are not filed. *)
Definition discard_traces (ctx : type_context) (fuel : nat) (cs : list name)
    : list trace_msg :=
  (fun c => (back_chaining, discard_message c))
    <$> filter (fun c => constant_target ctx fuel c = None) cs.

(** Every list of the map is in descending priority order, for the
    priorities the index was created with. *)
Definition head_map_sorted (prios : gmap name nat) (m : head_map_prio) : Prop :=
  m_prios m = prios /\
  forall h vs, m_map m !! h = Some vs ->
    StronglySorted
      (fun a b => backward_lemma_prio_fn prios b <= backward_lemma_prio_fn prios a) vs.

(** Descending priority, the order [find] is to return. *)
Definition descending (m_prios : gmap name nat) (l : list backward_lemma) : Prop :=
  StronglySorted
    (fun a b => backward_lemma_prio_fn m_prios b <= backward_lemma_prio_fn m_prios a) l.

End Priorities.

Definition invalid_intro_message (c : name) : string :=
  "invalid [intro] attribute for '" +:+ c +:+
  "', head symbol of resulting type must be a constant".

(** The handler registered for the attribute "intro" by
    [initialize_backward_lemmas]: lines 135-142.  The context is the one
    built from the environment the attribute is applied in; that
    environment is returned unchanged on success. *)
Definition intro_attribute_handler {environment : Type} (env : environment)
    (ctx : type_context) (fuel : nat) (c : name) : M environment :=
  index <- get_backward_target_of_name ctx fuel c ;;
  match index with
  | Some h =>
      if negb (bool_decide (hi_kind h = Constant)) then
        throw (invalid_intro_message c)
      else ret env
  | None => throw (invalid_intro_message c)
  end.

(** *** A small context for the examples *)

(** Replaces the loose variable [0] of a binder body, without going under
    further binders; enough for the types of the examples. *)
Fixpoint example_instantiate (e local : expr) : expr :=
  match e with
  | mk_var 0 => local
  | mk_app f a => mk_app (example_instantiate f local) (example_instantiate a local)
  | _ => e
  end.

(** Three declarations carry the attribute: ["p5"] and ["p10"] conclude
    with the constant ["Foo"] and have priorities 5 and 10; the conclusion
    of ["hd"] is headed by its own bound variable.  The hypothesis ["h"]
    proves a ["Foo"], the type of ["g"] is headed by a metavariable. *)
Definition example_ctx : type_context := {|
  declaration_type := fun c =>
    if bool_decide (c = "hd") then mk_pi mk_sort (mk_app (mk_var 0) mk_sort)
    else mk_pi mk_sort (mk_app (mk_constant "Foo") (mk_var 0));
  try_to_pi := fun e => e;
  infer := fun e =>
    if bool_decide (e = mk_local "h") then mk_app (mk_constant "Foo") mk_sort
    else mk_app (mk_metavar "m") mk_sort;
  instantiate := example_instantiate;
  push_local_from_binding := fun n _ => mk_local "x";
  intro_instances := ["p5"; "hd"; "p10"];
  intro_prios := {["p5" := 5; "p10" := 10]}
|}.

Definition Foo : head_index := mk_head_index Constant "Foo".

(** The index the constructor builds in the example context, with 1000 as
    the default priority. *)
Definition example_index : backward_lemma_index :=
  {| m_index :=
       foldl (index_step 1000 example_ctx 5)
         {| m_prios := intro_prios example_ctx; m_map := ∅ |}
         (reverse (intro_instances example_ctx)) |}.

End BackwardLemmas.

(** ** Part 3b: the remaining operations of [init.data.rbtree.basic] *)

Module RBTreeOps.
Import RBTree.

(** Modelled from the spec: [l_option_is__some___main___rarg], declared
    in [basic.cpp] and defined with [option]. *)
Definition l_option_is__some___main___rarg {A} (o : option A) : bool :=
  match o with
  | Some _ => true
  | None => false
  end.

(** The dictionary a monadic traversal is given: field [0] is the
    applicative structure, of which field [1] is [pure] and field [4] is
    [seq_right]; field [1] is [bind].  Only these three are read. *)
Record monad (M : Type -> Type) : Type := {
  pure : forall A, A -> M A;
  seq_right : forall A B, M A -> M B -> M B;
  bind : forall A B, M A -> (A -> M B) -> M B
}.

Arguments pure {M} _ {A} _.
Arguments seq_right {M} _ {A B} _ _.
Arguments bind {M} _ {A B} _ _.

Section Ops.
Context {K V : Type}.

Abbreviation node := (rbnode K V).

(** [_init_l_rbtree] and [mk_rbtree]: lines 165-182; the empty tree is
    [box(0)]. *)
Definition l_mk__rbtree : node := leaf.

(** [rbnode.fold]: lines 201-230.  [x_0] is applied to the key and to the
    accumulator. *)
Fixpoint l_rbnode_fold___main___at_rbtree_fold___spec__1___rarg {S : Type}
    (x_0 : K -> S -> S) (x_1 : node) (x_2 : S) : S :=
  match x_1 with
  | leaf => x_2
  | red_node x_4 x_6 _ x_8 | black_node x_4 x_6 _ x_8 =>
      let x_12 := l_rbnode_fold___main___at_rbtree_fold___spec__1___rarg x_0 x_4 x_2 in
      let x_14 := x_0 x_6 x_12 in
      l_rbnode_fold___main___at_rbtree_fold___spec__1___rarg x_0 x_8 x_14
  end.

(** [rbtree.fold]: lines 241-248. *)
Definition l_rbtree_fold___rarg {S : Type}
    (x_0 : K -> S -> S) (x_1 : node) (x_2 : S) : S :=
  l_rbnode_fold___main___at_rbtree_fold___spec__1___rarg x_0 x_1 x_2.

(** [rbnode.rev_fold]: lines 260-289. *)
Fixpoint l_rbnode_rev__fold___main___at_rbtree_rev__fold___spec__1___rarg
    {S : Type} (x_0 : K -> S -> S) (x_1 : node) (x_2 : S) : S :=
  match x_1 with
  | leaf => x_2
  | red_node x_4 x_6 _ x_8 | black_node x_4 x_6 _ x_8 =>
      let x_12 :=
        l_rbnode_rev__fold___main___at_rbtree_rev__fold___spec__1___rarg x_0 x_8 x_2 in
      let x_14 := x_0 x_6 x_12 in
      l_rbnode_rev__fold___main___at_rbtree_rev__fold___spec__1___rarg x_0 x_4 x_14
  end.

(** [rbtree.rev_fold]: lines 300-307. *)
Definition l_rbtree_rev__fold___rarg {S : Type}
    (x_0 : K -> S -> S) (x_1 : node) (x_2 : S) : S :=
  l_rbnode_rev__fold___main___at_rbtree_rev__fold___spec__1___rarg x_0 x_1 x_2.

(** [rbnode.mfold] and its closure [lambda__1]: lines 319-377.  The
    closure is what [bind] continues with after the left subtree: it runs
    [x_1] on the key and binds the traversal of the right subtree. *)
Fixpoint l_rbnode_mfold___main___at_rbtree_mfold___spec__1___rarg
    {M : Type -> Type} {S : Type}
    (x_0 : monad M) (x_1 : K -> S -> M S) (x_2 : node) (x_3 : S) : M S :=
  match x_2 with
  | leaf => pure x_0 x_3
  | red_node x_12 x_14 _ x_16 | black_node x_12 x_14 _ x_16 =>
      let x_19 := @bind M x_0 in
      let x_23 :=
        l_rbnode_mfold___main___at_rbtree_mfold___spec__1___rarg x_0 x_1 x_12 x_3 in
      let x_25 := fun x_5 =>
        let x_7 := x_1 x_14 x_5 in
        let x_8 :=
          l_rbnode_mfold___main___at_rbtree_mfold___spec__1___rarg x_0 x_1 x_16 in
        x_19 S S x_7 x_8 in
      x_19 S S x_23 x_25
  end.

(** [rbtree.mfold]: lines 389-396. *)
Definition l_rbtree_mfold___rarg {M : Type -> Type} {S : Type}
    (x_0 : monad M) (x_1 : K -> S -> M S) (x_2 : node) (x_3 : S) : M S :=
  l_rbnode_mfold___main___at_rbtree_mfold___spec__1___rarg x_0 x_1 x_2 x_3.

(** [rbnode.mfold] as specialised for [mfor], with its closure: lines
    409-478.  The closure drops the accumulator, runs [x_1] on the key and
    sequences [pure ()] after it with [seq_right]. *)
Fixpoint l_rbnode_mfold___main___at_rbtree_mfor___spec__1___rarg
    {M : Type -> Type} {T : Type}
    (x_0 : monad M) (x_1 : K -> M T) (x_2 : node) (x_3 : unit) : M unit :=
  match x_2 with
  | leaf => pure x_0 x_3
  | red_node x_12 x_14 _ x_16 | black_node x_12 x_14 _ x_16 =>
      let x_19 := @bind M x_0 in
      let x_23 :=
        l_rbnode_mfold___main___at_rbtree_mfor___spec__1___rarg x_0 x_1 x_12 x_3 in
      let x_25 := fun x_5 : unit =>
        let x_12' := x_1 x_14 in
        let x_17 := pure x_0 tt in
        let x_18 := seq_right x_0 x_12' x_17 in
        let x_19' :=
          l_rbnode_mfold___main___at_rbtree_mfor___spec__1___rarg x_0 x_1 x_16 in
        x_19 unit unit x_18 x_19' in
      x_19 unit unit x_23 x_25
  end.

(** [rbtree.mfor]: lines 490-497. *)
Definition l_rbtree_mfor___rarg {M : Type -> Type} {T : Type}
    (x_0 : monad M) (x_1 : K -> M T) (x_2 : node) : M unit :=
  l_rbnode_mfold___main___at_rbtree_mfor___spec__1___rarg x_0 x_1 x_2 tt.

(** [rbtree.empty]: lines 511-530. *)
Definition l_rbtree_empty___rarg (x_0 : node) : bool :=
  match x_0 with
  | leaf => true
  | _ => false
  end.

Section Ordered.
Variable lt : K -> K -> bool.

(** [rbtree.find] as specialised for [contains] (lines 1525-1715): the
    same body as [l_rbtree_find___rarg]. *)
Definition l_rbtree_find___at_rbtree_contains___spec__1___rarg
    (x_1 : node) (x_2 : K) : option K :=
  l_rbtree_find___rarg lt x_1 x_2.

(** [rbtree.contains]: lines 1726-1734. *)
Definition l_rbtree_contains___rarg (x_1 : node) (x_2 : K) : bool :=
  let x_3 := l_rbtree_find___at_rbtree_contains___spec__1___rarg x_1 x_2 in
  l_option_is__some___main___rarg x_3.

(** [rbtree.seteq]: lines 3415-3438.  The two specialised copies of
    [rbnode.all] it calls (lines 2914-3035 and 3265-3386) have the body of
    the one [subset] calls. *)
Definition l_rbtree_seteq___rarg (x_1 x_2 : node) : bool :=
  let x_6 := l_rbnode_all___main___at_rbtree_subset___spec__4___rarg lt x_2 x_1 in
  if negb x_6 then x_6
  else l_rbnode_all___main___at_rbtree_subset___spec__4___rarg lt x_1 x_2.

End Ordered.

(** The sequence of actions a monadic fold is to run for a list of keys,
    first key first. *)
Fixpoint mfold_list {M : Type -> Type} {S : Type}
    (m : monad M) (f : K -> S -> M S) (ks : list K) (a : S) : M S :=
  match ks with
  | [] => pure m a
  | k :: ks => bind m (f k a) (mfold_list m f ks)
  end.

End Ops.

(** The laws of a monad that the traversals rely on; the last one says
    that [bind] only looks at the values of its continuation. *)
Record lawful {M : Type -> Type} (m : monad M) : Prop := {
  bind_pure : forall A B (a : A) (f : A -> M B), bind m (pure m a) f = f a;
  bind_assoc : forall A B C (x : M A) (f : A -> M B) (g : B -> M C),
    bind m (bind m x f) g = bind m x (fun a => bind m (f a) g);
  bind_ext : forall A B (x : M A) (f g : A -> M B),
    (forall a, f a = g a) -> bind m x f = bind m x g
}.

(** The monad of computations that may fail, for the examples. *)
Definition option_monad : monad option := {|
  pure := fun A a => Some a;
  seq_right := fun A B x y => match x with Some _ => y | None => None end;
  bind := fun A B x f => match x with Some a => f a | None => None end
|}.

Section Sets.
Context {K : Type}.
Variable lt : K -> K -> bool.

(** [rbtree.of_list]: lines 1270-1295; the insertion it calls (lines
    1009-1241) has the body of [rbnode.insert]. *)
Fixpoint l_rbtree_of__list___main___rarg (x_1 : list K) : rbnode K unit :=
  match x_1 with
  | [] => leaf
  | x_4 :: x_6 =>
      let x_10 := l_rbtree_of__list___main___rarg x_6 in
      l_rbnode_insert___at_rbtree_insert___spec__2___rarg lt x_10 x_4 tt
  end.

(** [l_rbtree_of__list___rarg]: lines 1306-1313. *)
Definition l_rbtree_of__list___rarg (x_1 : list K) : rbnode K unit :=
  l_rbtree_of__list___main___rarg x_1.

(** [list.foldl] specialised to insertion: lines 2034-2058; [x_1] is the
    tree so far, [x_2] the list. *)
Fixpoint l_list_foldl___main___at_rbtree_from__list___spec__5___rarg
    (x_1 : rbnode K unit) (x_2 : list K) : rbnode K unit :=
  match x_2 with
  | [] => x_1
  | x_4 :: x_6 =>
      let x_11 := l_rbnode_insert___at_rbtree_insert___spec__2___rarg lt x_1 x_4 tt in
      l_list_foldl___main___at_rbtree_from__list___spec__5___rarg x_11 x_6
  end.

End Sets.

(** [rbtree.from_list]: lines 2069-2078; the list comes first, the
    comparator last, the argument in between is not used. *)
Definition l_rbtree_from__list___rarg {K} (x_0 : list K) (x_2 : K -> K -> bool)
    : rbnode K unit :=
  l_list_foldl___main___at_rbtree_from__list___spec__5___rarg x_2 leaf x_0.

(** [rbtree_of]: lines 3783-3791; it calls a copy of [from_list]. *)
Definition l_rbtree__of___rarg {K} (x_0 : list K) (x_2 : K -> K -> bool)
    : rbnode K unit :=
  l_rbtree_from__list___rarg x_0 x_2.

(** Two keys neither of which is below the other. *)
Definition equiv {K} (lt : K -> K -> bool) (a b : K) : Prop :=
  lt a b = false /\ lt b a = false.

End RBTreeOps.

(** ** Part 3c: the bounded fixpoints of several arguments *)

Module FixOps.

(** [bfix₂]: lines 291-318. *)
Fixpoint l_bfix_u_2082___main___rarg {A1 A2 B : Type}
    (x_0 : A1 -> A2 -> B) (x_1 : (A1 -> A2 -> B) -> A1 -> A2 -> B)
    (x_2 : nat) (x_3 : A1) (x_4 : A2) : B :=
  match x_2 with
  | 0 => x_0 x_3 x_4
  | S x_8 =>
      let x_10 := l_bfix_u_2082___main___rarg x_0 x_1 x_8 in
      x_1 x_10 x_3 x_4
  end.

(** [bfix₃]: lines 438-465. *)
Fixpoint l_bfix_u_2083___main___rarg {A1 A2 A3 B : Type}
    (x_0 : A1 -> A2 -> A3 -> B)
    (x_1 : (A1 -> A2 -> A3 -> B) -> A1 -> A2 -> A3 -> B)
    (x_2 : nat) (x_3 : A1) (x_4 : A2) (x_5 : A3) : B :=
  match x_2 with
  | 0 => x_0 x_3 x_4 x_5
  | S x_9 =>
      let x_11 := l_bfix_u_2083___main___rarg x_0 x_1 x_9 in
      x_1 x_11 x_3 x_4 x_5
  end.

(** A step for the examples: the factorial, one recursive call on the
    predecessor. *)
Definition factorial_step (k : nat -> nat) (n : nat) : nat :=
  match n with
  | 0 => 1
  | S p => n * k p
  end.

End FixOps.

(** ** Part 4: properties of the red-black tree *)

Module RBTreeFacts.
Import RBTree.

Local Abbreviation ins := l_rbnode_ins___main___at_rbtree_insert___spec__3___rarg.
Local Abbreviation rbnode_insert := l_rbnode_insert___at_rbtree_insert___spec__2___rarg.
Local Abbreviation find_core := l_rbnode_find__core___main___at_rbtree_find___spec__2___rarg.
Local Abbreviation balance1_node := l_rbnode_balance1__node___main___rarg.
Local Abbreviation balance2_node := l_rbnode_balance2__node___main___rarg.
Local Abbreviation get_color := l_rbnode_get__color___main___rarg.
Local Abbreviation mk_insert_result := l_rbnode_mk__insert__result___main___rarg.
Local Abbreviation rev_fold_cons :=
  l_rbnode_rev__fold___main___at_rbtree_to__list___spec__1___rarg.

(** Case analysis on the comparisons a goal branches on. *)
Ltac case_lt :=
  repeat match goal with
  | |- context [negb (?lt ?a ?b)] =>
      is_var lt; let E := fresh "E" in destruct (lt a b) eqn:E; simpl
  | |- context [if ?lt ?a ?b then _ else _] =>
      is_var lt; let E := fresh "E" in destruct (lt a b) eqn:E; simpl
  end.

Section Lists.
Context {K V : Type}.
Variable lt : K -> K -> bool.
Hypothesis Hlt : strict_weak_order lt.

Lemma lt_asym a b : lt a b = true -> lt b a = false.
Proof.
  intros Hab. destruct (lt b a) eqn:Hba; [|done].
  pose proof (swo_trans lt Hlt a b a Hab Hba) as H.
  by rewrite (swo_irrefl lt Hlt) in H.
Qed.

(** An element below [y] is below everything that is not below [y]. *)
Lemma lt_below x y k :
  lt x y = true -> lt k y = false -> lt x k = true /\ lt k x = false.
Proof.
  intros Hxy Hky.
  assert (Hkx : lt k x = false).
  { destruct (lt k x) eqn:E; [|done].
    pose proof (swo_trans lt Hlt k x y E Hxy). congruence. }
  split; [|done].
  destruct (lt x k) eqn:Hxk; [done|].
  destruct (lt y k) eqn:Hyk.
  - pose proof (swo_trans lt Hlt x y k Hxy Hyk). congruence.
  - destruct (swo_incomp lt Hlt x k y) as [E _]; auto. congruence.
Qed.

(** An element above [y] is above everything that is not above [y]. *)
Lemma lt_above z y k :
  lt y z = true -> lt y k = false -> lt k z = true /\ lt z k = false.
Proof.
  intros Hyz Hyk.
  assert (Hzk : lt z k = false).
  { destruct (lt z k) eqn:E; [|done].
    pose proof (swo_trans lt Hlt y z k Hyz E). congruence. }
  split; [|done].
  destruct (lt k z) eqn:Hkz; [done|].
  destruct (lt k y) eqn:Hky.
  - pose proof (swo_trans lt Hlt k y z Hky Hyz). congruence.
  - destruct (swo_incomp lt Hlt y k z) as [E _]; auto. congruence.
Qed.

Lemma ins_list_app_lt k v xs y vy (ys : list (K * V)) :
  lt k y = true ->
  ins_list lt k v (xs ++ (y, vy) :: ys) = ins_list lt k v xs ++ (y, vy) :: ys.
Proof.
  intros Hky. induction xs as [|[x vx] xs IH]; simpl.
  - by rewrite Hky.
  - case_lt; by rewrite ?IH.
Qed.

Lemma ins_list_app_ge k v xs (l : list (K * V)) :
  Forall (fun x => lt x k = true /\ lt k x = false) xs.*1 ->
  ins_list lt k v (xs ++ l) = xs ++ ins_list lt k v l.
Proof.
  induction xs as [|[x vx] xs IH]; simpl; [done|].
  rewrite Forall_cons. intros [[-> ->] Hxs]. by rewrite IH.
Qed.

Lemma find_list_app_lt k xs y vy (ys : list (K * V)) :
  lt k y = true ->
  find_list lt k (xs ++ (y, vy) :: ys) = find_list lt k xs.
Proof.
  intros Hky. induction xs as [|[x vx] xs IH]; simpl.
  - by rewrite Hky.
  - by case_lt.
Qed.

Lemma find_list_app_ge k xs (l : list (K * V)) :
  Forall (fun x => lt x k = true /\ lt k x = false) xs.*1 ->
  find_list lt k (xs ++ l) = find_list lt k l.
Proof.
  induction xs as [|[x vx] xs IH]; simpl; [done|].
  rewrite Forall_cons. intros [[-> ->] Hxs]. by rewrite IH.
Qed.

Lemma find_list_ins_list k v (l : list (K * V)) :
  find_list lt k (ins_list lt k v l) = Some (k, v).
Proof.
  induction l as [|[y vy] l IH]; simpl.
  - by rewrite (swo_irrefl lt Hlt).
  - destruct (lt k y) eqn:E1; simpl.
    + by rewrite (swo_irrefl lt Hlt).
    + destruct (lt y k) eqn:E2; simpl.
      * by rewrite E1, E2.
      * by rewrite (swo_irrefl lt Hlt).
Qed.

Lemma ins_list_keys k v (l : list (K * V)) x :
  x ∈ (ins_list lt k v l).*1 -> x = k \/ x ∈ l.*1.
Proof.
  induction l as [|[y vy] l IH]; simpl.
  - rewrite elem_of_cons, elem_of_nil. tauto.
  - case_lt; rewrite ?fmap_cons, ?elem_of_cons; simpl; intuition.
Qed.

Lemma ins_list_ascending k v (l : list (K * V)) :
  ascending lt l.*1 -> ascending lt (ins_list lt k v l).*1.
Proof.
  unfold ascending. induction l as [|[y vy] l IH]; simpl.
  - intros _. repeat constructor.
  - rewrite StronglySorted_cons. intros [Hy Hl].
    destruct (lt k y) eqn:E1; simpl.
    + rewrite !StronglySorted_cons. split_and!; [|done..].
      constructor; [done|].
      eapply Forall_impl; [exact Hy|]. intros z Hz. simpl in Hz.
      by apply (swo_trans lt Hlt k y z).
    + destruct (lt y k) eqn:E2; simpl.
      * rewrite StronglySorted_cons. split; [|auto].
        rewrite Forall_forall. intros z Hz.
        apply ins_list_keys in Hz as [->|Hz]; [done|].
        rewrite Forall_forall in Hy. auto.
      * rewrite StronglySorted_cons. split; [|done].
        eapply Forall_impl; [exact Hy|]. intros z Hz. simpl in Hz.
        by apply (lt_above z y k).
Qed.

End Lists.

Section Trees.
Context {K V : Type}.
Variable lt : K -> K -> bool.

Implicit Types t l r s : rbnode K V.

Lemma balance1_node_not_leaf s y vy t :
  s <> leaf -> balance1_node s y vy t <> leaf.
Proof. destruct s as [|[] ? ? []|[] ? ? []]; simpl; congruence. Qed.

Lemma balance2_node_not_leaf s y vy t :
  s <> leaf -> balance2_node s y vy t <> leaf.
Proof. destruct s as [|[] ? ? []|[] ? ? []]; simpl; congruence. Qed.

Lemma ins_not_leaf t k v : ins lt t k v <> leaf.
Proof.
  induction t as [|l IHl y vy r IHr|l IHl y vy r IHr]; simpl.
  - congruence.
  - case_lt; congruence.
  - case_lt; try congruence.
    + destruct (get_color l); [|congruence].
      by apply balance1_node_not_leaf.
    + destruct (get_color r); [|congruence].
      by apply balance2_node_not_leaf.
Qed.

Lemma ins_red t k v : get_color t = red -> get_color (ins lt t k v) = red.
Proof. destruct t; simpl; try done. by case_lt. Qed.

Lemma inorder_balance1_node s y vy t :
  s <> leaf ->
  inorder (balance1_node s y vy t) = inorder s ++ (y, vy) :: inorder t.
Proof.
  destruct s as [|[] ? ? []|[] ? ? []]; simpl; try congruence; intros _;
    by rewrite <- ?app_assoc; simpl; rewrite <- ?app_assoc.
Qed.

Lemma inorder_balance2_node s y vy t :
  s <> leaf ->
  inorder (balance2_node s y vy t) = inorder t ++ (y, vy) :: inorder s.
Proof.
  destruct s as [|[] ? ? []|[] ? ? []]; simpl; try congruence; intros _;
    by rewrite <- ?app_assoc; simpl; rewrite <- ?app_assoc.
Qed.

Lemma inorder_mk_insert_result c t :
  inorder (mk_insert_result c t) = inorder t.
Proof. by destruct c, t. Qed.

Lemma keys_red_node l y vy r :
  keys (red_node l y vy r) = keys l ++ y :: keys r.
Proof. unfold keys. simpl. by rewrite fmap_app. Qed.

Lemma keys_black_node l y vy r :
  keys (black_node l y vy r) = keys l ++ y :: keys r.
Proof. unfold keys. simpl. by rewrite fmap_app. Qed.

Lemma rev_fold_cons_keys t acc : rev_fold_cons t acc = keys t ++ acc.
Proof.
  revert acc.
  induction t as [|l IHl y vy r IHr|l IHl y vy r IHr]; intros acc; simpl.
  - done.
  - by rewrite IHr, IHl, keys_red_node, <- app_assoc.
  - by rewrite IHr, IHl, keys_black_node, <- app_assoc.
Qed.

Lemma to_list_keys t : l_rbtree_to__list___rarg t = keys t.
Proof.
  unfold l_rbtree_to__list___rarg. by rewrite rev_fold_cons_keys, app_nil_r.
Qed.

Lemma ascending_node_inv (ls : list K) y rs :
  ascending lt (ls ++ y :: rs) ->
  ascending lt ls /\ ascending lt rs /\
  Forall (fun x => lt x y = true) ls /\ Forall (fun z => lt y z = true) rs.
Proof.
  unfold ascending. rewrite StronglySorted_app, StronglySorted_cons.
  intros (Hlr & Hl & Hy & Hr). split_and!; try done.
  rewrite Forall_forall. intros x Hx. apply Hlr; [done|]. left.
Qed.

Hypothesis Hlt : strict_weak_order lt.

Lemma below_all (ls : list K) y k :
  Forall (fun x => lt x y = true) ls -> lt k y = false ->
  Forall (fun x => lt x k = true /\ lt k x = false) ls.
Proof.
  intros Hls Hky. eapply Forall_impl; [exact Hls|].
  intros x Hx. by apply (lt_below lt Hlt x y k).
Qed.

Lemma inorder_ins t k v :
  ordered lt t -> inorder (ins lt t k v) = ins_list lt k v (inorder t).
Proof.
  unfold ordered.
  induction t as [|l IHl y vy r IHr|l IHl y vy r IHr]; simpl; [done|..].
  - rewrite keys_red_node. intros (Hl & Hr & Hly & Hyr)%ascending_node_inv.
    destruct (lt k y) eqn:E1; simpl.
    + by rewrite ins_list_app_lt, IHl.
    + rewrite ins_list_app_ge by (by eapply below_all). simpl. rewrite E1.
      destruct (lt y k) eqn:E2; simpl; [|done]. by rewrite IHr.
  - rewrite keys_black_node. intros (Hl & Hr & Hly & Hyr)%ascending_node_inv.
    destruct (lt k y) eqn:E1; simpl.
    + rewrite ins_list_app_lt by done. rewrite <- IHl by done.
      destruct (get_color l); [|done].
      by rewrite inorder_balance1_node by apply ins_not_leaf.
    + rewrite ins_list_app_ge by (by eapply below_all). simpl. rewrite E1.
      destruct (lt y k) eqn:E2; simpl; [|done]. rewrite <- IHr by done.
      destruct (get_color r); [|done].
      by rewrite inorder_balance2_node by apply ins_not_leaf.
Qed.

Lemma find_core_inorder t k :
  ordered lt t -> find_core lt t k = find_list lt k (inorder t).
Proof.
  unfold ordered.
  induction t as [|l IHl y vy r IHr|l IHl y vy r IHr]; simpl; [done|..].
  - rewrite keys_red_node. intros (Hl & Hr & Hly & Hyr)%ascending_node_inv.
    destruct (lt k y) eqn:E1; simpl.
    + by rewrite find_list_app_lt, IHl.
    + rewrite find_list_app_ge by (by eapply below_all). simpl. rewrite E1.
      destruct (lt y k) eqn:E2; simpl; [|done]. by rewrite IHr.
  - rewrite keys_black_node. intros (Hl & Hr & Hly & Hyr)%ascending_node_inv.
    destruct (lt k y) eqn:E1; simpl.
    + by rewrite find_list_app_lt, IHl.
    + rewrite find_list_app_ge by (by eapply below_all). simpl. rewrite E1.
      destruct (lt y k) eqn:E2; simpl; [|done]. by rewrite IHr.
Qed.

Lemma inorder_insert t k v :
  ordered lt t -> inorder (rbnode_insert lt t k v) = ins_list lt k v (inorder t).
Proof.
  intros Ht. unfold rbnode_insert.
  by rewrite inorder_mk_insert_result, inorder_ins.
Qed.

Lemma ordered_insert t k v :
  ordered lt t -> ordered lt (rbnode_insert lt t k v).
Proof.
  intros Ht. unfold ordered, keys. rewrite inorder_insert by done.
  by apply ins_list_ascending.
Qed.

Lemma well_formed_ordered t : well_formed lt t -> ordered lt t.
Proof.
  induction 1 as [|t k v _ IH].
  - constructor.
  - by apply ordered_insert.
Qed.

Lemma find_core_insert t k v :
  ordered lt t -> find_core lt (rbnode_insert lt t k v) k = Some (k, v).
Proof.
  intros Ht. rewrite find_core_inorder by (by apply ordered_insert).
  rewrite inorder_insert by done. by apply find_list_ins_list.
Qed.

End Trees.

Section Balance.
Context {K V : Type}.
Variable lt : K -> K -> bool.

Implicit Types t l r s : rbnode K V.

Lemma red_red_free_weaken t :
  red_red_free t = true -> red_red_free_below t = true.
Proof.
  destruct t as [|l y vy r|l y vy r]; simpl; try done.
  by destruct (get_color l), (get_color r).
Qed.

Lemma red_red_free_black t :
  get_color t = black -> red_red_free_below t = true -> red_red_free t = true.
Proof. by destruct t. Qed.

Lemma red_red_free_red_inv l y vy r :
  red_red_free (red_node l y vy r) = true ->
  get_color l = black /\ get_color r = black /\
  red_red_free l = true /\ red_red_free r = true.
Proof.
  simpl. destruct (get_color l), (get_color r); try done.
  by intros [??]%andb_true_iff.
Qed.

Lemma balance1_red_red_free l x vx r y vy t :
  red_red_free l = true -> red_red_free r = true -> red_red_free t = true ->
  red_red_free (balance1 l x vx r y vy t) = true.
Proof.
  intros Hl Hr Ht.
  destruct l as [|l1 x1 v1 r1|l1 x1 v1 r1];
    [destruct r as [|l2 x2 v2 r2|l2 x2 v2 r2]| |
     destruct r as [|l2 x2 v2 r2|l2 x2 v2 r2]];
    repeat match goal with
    | H : red_red_free (red_node _ _ _ _) = true |- _ =>
        apply red_red_free_red_inv in H as (? & ? & ? & ?)
    | H : red_red_free (black_node _ _ _ _) = true |- _ =>
        simpl in H; apply andb_true_iff in H as [??]
    end;
    simpl; rewrite ?Ht; repeat (apply andb_true_iff; split); auto.
Qed.

Lemma balance2_red_red_free l x vx r y vy t :
  red_red_free l = true -> red_red_free r = true -> red_red_free t = true ->
  red_red_free (balance2 l x vx r y vy t) = true.
Proof.
  intros Hl Hr Ht.
  destruct l as [|l1 x1 v1 r1|l1 x1 v1 r1];
    [destruct r as [|l2 x2 v2 r2|l2 x2 v2 r2]| |
     destruct r as [|l2 x2 v2 r2|l2 x2 v2 r2]];
    repeat match goal with
    | H : red_red_free (red_node _ _ _ _) = true |- _ =>
        apply red_red_free_red_inv in H as (? & ? & ? & ?)
    | H : red_red_free (black_node _ _ _ _) = true |- _ =>
        simpl in H; apply andb_true_iff in H as [??]
    end;
    simpl; rewrite ?Ht; repeat (apply andb_true_iff; split); auto.
Qed.

(** What insertion returns for a red node: a red node again. *)
Lemma ins_red_inv t k v :
  get_color t = red ->
  exists l x vx r, ins lt t k v = red_node l x vx r.
Proof.
  intros Ht. pose proof (ins_red lt t k v Ht) as H.
  destruct (ins lt t k v); try done. eauto.
Qed.

Lemma ins_red_red_free t k v :
  red_red_free t = true ->
  red_red_free_below (ins lt t k v) = true /\
  (get_color t = black -> red_red_free (ins lt t k v) = true).
Proof.
  induction t as [|l IHl y vy r IHr|l IHl y vy r IHr].
  - done.
  - intros (Hcl & Hcr & Hl & Hr)%red_red_free_red_inv.
    destruct (IHl Hl) as [_ IHl']. destruct (IHr Hr) as [_ IHr'].
    split; [|done]. simpl. case_lt; rewrite ?Hl, ?Hr, ?IHl', ?IHr'; done.
  - simpl. intros [Hl Hr]%andb_true_iff.
    destruct (IHl Hl) as [IHl1 IHl2]. destruct (IHr Hr) as [IHr1 IHr2].
    assert (red_red_free (ins lt (black_node l y vy r) k v) = true) as H;
      [|split; [by apply red_red_free_weaken|done]].
    simpl. case_lt.
    + destruct (get_color l) eqn:Hc.
      * destruct (ins_red_inv l k v Hc) as (l' & x & vx & r' & Ei).
        rewrite Ei in *. simpl in IHl1. apply andb_true_iff in IHl1 as [??].
        by apply balance1_red_red_free.
      * simpl. by rewrite IHl2, Hr.
    + destruct (get_color r) eqn:Hc.
      * destruct (ins_red_inv r k v Hc) as (l' & x & vx & r' & Ei).
        rewrite Ei in *. simpl in IHr1. apply andb_true_iff in IHr1 as [??].
        by apply balance2_red_red_free.
      * simpl. by rewrite IHr2, Hl.
    + simpl. by rewrite Hl, Hr.
Qed.

Lemma mk_insert_result_red_red_free c s :
  red_red_free_below s = true -> red_red_free (mk_insert_result c s) = true.
Proof. by destruct c, s. Qed.

Lemma mk_insert_result_black c s : get_color (mk_insert_result c s) = black.
Proof. by destruct c, s. Qed.

Lemma insert_red_red_free t k v :
  red_red_free t = true -> red_red_free (rbnode_insert lt t k v) = true.
Proof.
  intros Ht. apply mk_insert_result_red_red_free. by apply ins_red_red_free.
Qed.

Lemma balance1_black_height n l x vx r y vy t :
  black_height n l -> black_height n r -> black_height n t ->
  black_height (S n) (balance1 l x vx r y vy t).
Proof.
  intros Hl Hr Ht.
  destruct l as [|l1 x1 v1 r1|l1 x1 v1 r1];
    [destruct r as [|l2 x2 v2 r2|l2 x2 v2 r2]| |
     destruct r as [|l2 x2 v2 r2|l2 x2 v2 r2]];
    simpl in *; intuition.
Qed.

Lemma balance2_black_height n l x vx r y vy t :
  black_height n l -> black_height n r -> black_height n t ->
  black_height (S n) (balance2 l x vx r y vy t).
Proof.
  intros Hl Hr Ht.
  destruct l as [|l1 x1 v1 r1|l1 x1 v1 r1];
    [destruct r as [|l2 x2 v2 r2|l2 x2 v2 r2]| |
     destruct r as [|l2 x2 v2 r2|l2 x2 v2 r2]];
    simpl in *; intuition.
Qed.

Lemma ins_black_height t k v n :
  black_height n t -> black_height n (ins lt t k v).
Proof.
  revert n.
  induction t as [|l IHl y vy r IHr|l IHl y vy r IHr]; intros n; simpl.
  - by intros ->.
  - intros [Hl Hr]. case_lt; auto.
  - destruct n as [|n]; [done|]. intros [Hl Hr]. case_lt.
    + destruct (get_color l) eqn:Hc; [|simpl; auto].
      destruct (ins_red_inv l k v Hc) as (l' & x & vx & r' & Ei).
      specialize (IHl n Hl). rewrite Ei in *. destruct IHl.
      by apply balance1_black_height.
    + destruct (get_color r) eqn:Hc; [|simpl; auto].
      destruct (ins_red_inv r k v Hc) as (l' & x & vx & r' & Ei).
      specialize (IHr n Hr). rewrite Ei in *. destruct IHr.
      by apply balance2_black_height.
    + done.
Qed.

Lemma mk_insert_result_black_height c s n :
  black_height n s -> exists m, black_height m (mk_insert_result c s).
Proof. destruct c, s; simpl; intros H; first [by exists n | by exists (S n)]. Qed.

Lemma black_height_counts t n :
  black_height n t -> forall m, m ∈ black_counts t -> m = n.
Proof.
  revert n.
  induction t as [|l IHl y vy r IHr|l IHl y vy r IHr]; intros n; simpl.
  - intros -> m. by rewrite list_elem_of_singleton.
  - intros [Hl Hr] m. rewrite elem_of_app. intros [?|?]; eauto.
  - destruct n as [|n]; [done|]. intros [Hl Hr] m.
    rewrite list_elem_of_fmap. intros (m' & -> & Hm').
    f_equal. apply elem_of_app in Hm' as [?|?]; eauto.
Qed.

(** The invariants every tree of the data model satisfies. *)
Lemma well_formed_red_black t :
  well_formed lt t ->
  red_red_free t = true /\ get_color t = black /\ exists n, black_height n t.
Proof.
  induction 1 as [|t k v _ (Hrr & Hc & n & Hn)].
  - split_and!; try done. by exists 0.
  - split_and!.
    + by apply insert_red_red_free.
    + apply mk_insert_result_black.
    + eapply mk_insert_result_black_height, ins_black_height, Hn.
Qed.

End Balance.

Section Replace.
Context {K V : Type}.
Variable lt : K -> K -> bool.

Implicit Types t l r s : rbnode K V.

Lemma replace_color t k v : get_color (replace lt t k v) = get_color t.
Proof. destruct t; simpl; try done; by case_lt. Qed.


Lemma balance1_black l x vx r y vy t :
  get_color l = black -> get_color r = black ->
  balance1 l x vx r y vy t = black_node (red_node l x vx r) y vy t.
Proof. by destruct l, r. Qed.

Lemma balance2_black l x vx r y vy t :
  get_color l = black -> get_color r = black ->
  balance2 l x vx r y vy t = black_node t y vy (red_node l x vx r).
Proof. by destruct l, r. Qed.

(** Below a black node, a red child without red children comes back from
    the rebalancing step as it went in. *)
Lemma balance1_node_red s y vy t :
  get_color s = red -> red_red_free s = true ->
  balance1_node s y vy t = black_node s y vy t.
Proof.
  destruct s as [|l x vx r|]; try done. intros _ H.
  apply red_red_free_red_inv in H as (? & ? & _). by apply balance1_black.
Qed.

Lemma balance2_node_red s y vy t :
  get_color s = red -> red_red_free s = true ->
  balance2_node s y vy t = black_node t y vy s.
Proof.
  destruct s as [|l x vx r|]; try done. intros _ H.
  apply red_red_free_red_inv in H as (? & ? & _). by apply balance2_black.
Qed.

Lemma replace_red_red_free t k v :
  red_red_free t = true -> red_red_free (replace lt t k v) = true.
Proof.
  induction t as [|l IHl y vy r IHr|l IHl y vy r IHr]; [done|..].
  - intros (Hcl & Hcr & Hl & Hr)%red_red_free_red_inv.
    simpl. case_lt; simpl; rewrite ?replace_color, ?Hcl, ?Hcr, ?IHl, ?IHr, ?Hl, ?Hr; done.
  - simpl. intros [Hl Hr]%andb_true_iff.
    case_lt; simpl; rewrite ?IHl, ?IHr, ?Hl, ?Hr; done.
Qed.

(** On a key that is present, [ins] overwrites the entry and does nothing
    else. *)
Lemma ins_replace t k v :
  red_red_free t = true -> is_Some (find_core lt t k) ->
  ins lt t k v = replace lt t k v.
Proof.
  induction t as [|l IHl y vy r IHr|l IHl y vy r IHr].
  - simpl. by intros _ [? ?].
  - intros (Hcl & Hcr & Hl & Hr)%red_red_free_red_inv. simpl.
    case_lt; intros Hk; by rewrite ?IHl, ?IHr.
  - simpl. intros [Hl Hr]%andb_true_iff.
    case_lt; intros Hk; [| |done].
    + rewrite IHl by done. destruct (get_color l) eqn:Hc; [|done].
      apply balance1_node_red; [by rewrite replace_color|].
      by apply replace_red_red_free.
    + rewrite IHr by done. destruct (get_color r) eqn:Hc; [|done].
      apply balance2_node_red; [by rewrite replace_color|].
      by apply replace_red_red_free.
Qed.

Lemma mk_insert_result_id c s :
  get_color s = black -> mk_insert_result c s = s.
Proof. by destruct c, s. Qed.

Lemma insert_replace t k v :
  well_formed lt t -> is_Some (find_core lt t k) ->
  rbnode_insert lt t k v = replace lt t k v.
Proof.
  intros (Hrr & Hc & _)%well_formed_red_black Hk. unfold rbnode_insert.
  rewrite ins_replace by done.
  apply mk_insert_result_id. by rewrite replace_color.
Qed.

Lemma same_upto_refl k t : same_upto k t t.
Proof. induction t; simpl; auto. Qed.

Lemma same_upto_balance1_node k s1 s2 y vy t1 t2 :
  same_upto k s1 s2 -> same_upto k t1 t2 ->
  same_upto k (balance1_node s1 y vy t1) (balance1_node s2 y vy t2).
Proof.
  destruct s1 as [|[] ? ? []|[] ? ? []], s2 as [|[] ? ? []|[] ? ? []];
    simpl; intuition.
Qed.

Lemma same_upto_balance2_node k s1 s2 y vy t1 t2 :
  same_upto k s1 s2 -> same_upto k t1 t2 ->
  same_upto k (balance2_node s1 y vy t1) (balance2_node s2 y vy t2).
Proof.
  destruct s1 as [|[] ? ? []|[] ? ? []], s2 as [|[] ? ? []|[] ? ? []];
    simpl; intuition.
Qed.

(** The value inserted has no influence on where it goes. *)
Lemma same_upto_ins t k v1 v2 :
  same_upto k (ins lt t k v1) (ins lt t k v2).
Proof.
  induction t as [|l IHl y vy r IHr|l IHl y vy r IHr]; simpl.
  - auto.
  - case_lt; simpl; auto using same_upto_refl.
  - case_lt; simpl; auto using same_upto_refl.
    + destruct (get_color l); simpl; auto using same_upto_refl.
      apply same_upto_balance1_node; auto using same_upto_refl.
    + destruct (get_color r); simpl; auto using same_upto_refl.
      apply same_upto_balance2_node; auto using same_upto_refl.
Qed.

Lemma same_upto_mk_insert_result k c s1 s2 :
  same_upto k s1 s2 ->
  same_upto k (mk_insert_result c s1) (mk_insert_result c s2).
Proof. by destruct c, s1, s2. Qed.

Lemma same_upto_insert t k v1 v2 :
  same_upto k (rbnode_insert lt t k v1) (rbnode_insert lt t k v2).
Proof. apply same_upto_mk_insert_result, same_upto_ins. Qed.

Lemma same_upto_no_key k t1 t2 :
  same_upto k t1 t2 -> k ∉ keys t1 -> t1 = t2.
Proof.
  revert t2.
  induction t1 as [|l IHl y vy r IHr|l IHl y vy r IHr]; intros [] H Hk;
    try done; simpl in H; destruct H as (Hl & <- & Hv & Hr);
    rewrite ?keys_red_node, ?keys_black_node in Hk;
    rewrite elem_of_app, elem_of_cons in Hk;
    (destruct Hv as [<-|<-]; [|tauto]);
    f_equal; [apply IHl|apply IHr|apply IHl|apply IHr]; tauto.
Qed.

Hypothesis Hlt : strict_weak_order lt.

Lemma not_in_above (rs : list K) y k :
  Forall (fun z => lt y z = true) rs -> lt y k = false -> k ∉ rs.
Proof. rewrite Forall_forall. intros H Hk Hin. apply H in Hin. congruence. Qed.

Lemma not_in_below (ls : list K) y k :
  Forall (fun x => lt x y = true) ls -> lt k y = false -> k ∉ ls.
Proof. rewrite Forall_forall. intros H Hk Hin. apply H in Hin. congruence. Qed.

(** In an ordered tree the key [k] sits on the search path of [k] only. *)
Lemma replace_same_upto t1 t2 k v :
  ordered lt t1 -> same_upto k t1 t2 ->
  find_core lt t2 k = Some (k, v) ->
  replace lt t1 k v = t2.
Proof.
  unfold ordered. revert t2.
  induction t1 as [|l IHl y vy r IHr|l IHl y vy r IHr]; intros [|l2 y2 v2 r2|l2 y2 v2 r2];
    try done; rewrite ?keys_red_node, ?keys_black_node;
    intros (Hol & Hor & Hly & Hyr)%ascending_node_inv;
    simpl; intros (Hl & <- & Hv & Hr).
  all: destruct (lt k y) eqn:E1; simpl;
    [|destruct (lt y k) eqn:E2; simpl]; intros Hfind.
  all: try (assert (vy = v2) as <- by
    (destruct Hv as [?| ->]; [done|by rewrite (swo_irrefl lt Hlt) in *])).
  - f_equal; [by apply IHl|].
    apply (same_upto_no_key k); [done|].
    eapply not_in_above; [done|]. by apply (lt_asym lt Hlt).
  - f_equal; [|by apply IHr].
    apply (same_upto_no_key k); [done|]. by eapply not_in_below.
  - injection Hfind as -> ->. f_equal.
    + apply (same_upto_no_key k); [done|]. by eapply not_in_below.
    + apply (same_upto_no_key k); [done|]. by eapply not_in_above.
  - f_equal; [by apply IHl|].
    apply (same_upto_no_key k); [done|].
    eapply not_in_above; [done|]. by apply (lt_asym lt Hlt).
  - f_equal; [|by apply IHr].
    apply (same_upto_no_key k); [done|]. by eapply not_in_below.
  - injection Hfind as -> ->. f_equal.
    + apply (same_upto_no_key k); [done|]. by eapply not_in_below.
    + apply (same_upto_no_key k); [done|]. by eapply not_in_above.
Qed.

Lemma insert_insert t k v1 v2 :
  well_formed lt t ->
  rbnode_insert lt (rbnode_insert lt t k v1) k v2 = rbnode_insert lt t k v2.
Proof.
  intros Ht. pose proof (well_formed_ordered lt Hlt t Ht) as Ho.
  rewrite insert_replace.
  - apply replace_same_upto.
    + by apply ordered_insert.
    + apply same_upto_insert.
    + by apply find_core_insert.
  - by constructor.
  - rewrite find_core_insert by done. by eexists.
Qed.






End Replace.

Section Traversals.
Context {K V : Type}.

Implicit Types t l r s : rbnode K V.

Lemma option_to_bool_is_Some {A} (o : option A) :
  l_option_to__bool___main___rarg o = true <-> is_Some o.
Proof. destruct o; simpl; split; done. Qed.

Lemma all_subset_spec (lt : K -> K -> bool) t2 t1 :
  l_rbnode_all___main___at_rbtree_subset___spec__4___rarg lt t2 t1 = true <->
  forall k, k ∈ keys t1 -> is_Some (l_rbtree_find___rarg lt t2 k).
Proof.
  induction t1 as [|l IHl y vy r IHr|l IHl y vy r IHr]; simpl.
  - split; [|done]. intros _ k Hk. by apply elem_of_nil in Hk.
  - rewrite keys_red_node.
    unfold l_rbtree_find___at_rbtree_subset___spec__1___rarg.
    pose proof (option_to_bool_is_Some (l_rbtree_find___rarg lt t2 y)) as Hy.
    destruct (l_option_to__bool___main___rarg _); simpl.
    + destruct (l_rbnode_all___main___at_rbtree_subset___spec__4___rarg lt t2 l);
        simpl.
      * rewrite IHr. split.
        -- intros Hr k. rewrite elem_of_app, elem_of_cons.
           intros [?|[->|?]]; [by apply IHl|by apply Hy|by apply Hr].
        -- intros H k Hk. apply H. rewrite elem_of_app, elem_of_cons. auto.
      * split; [done|]. intros H. apply IHl. intros k Hk. apply H.
        rewrite elem_of_app. auto.
    + split; [done|]. intros H. apply Hy, H.
      rewrite elem_of_app, elem_of_cons. auto.
  - rewrite keys_black_node.
    unfold l_rbtree_find___at_rbtree_subset___spec__1___rarg.
    pose proof (option_to_bool_is_Some (l_rbtree_find___rarg lt t2 y)) as Hy.
    destruct (l_option_to__bool___main___rarg _); simpl.
    + destruct (l_rbnode_all___main___at_rbtree_subset___spec__4___rarg lt t2 l);
        simpl.
      * rewrite IHr. split.
        -- intros Hr k. rewrite elem_of_app, elem_of_cons.
           intros [?|[->|?]]; [by apply IHl|by apply Hy|by apply Hr].
        -- intros H k Hk. apply H. rewrite elem_of_app, elem_of_cons. auto.
      * split; [done|]. intros H. apply IHl. intros k Hk. apply H.
        rewrite elem_of_app. auto.
    + split; [done|]. intros H. apply Hy, H.
      rewrite elem_of_app, elem_of_cons. auto.
Qed.

Lemma upto_first_app (q : K -> bool) (xs ys : list K) :
  upto_first q (xs ++ ys) =
  if existsb q xs then upto_first q xs else xs ++ upto_first q ys.
Proof.
  induction xs as [|x xs IH]; simpl; [done|].
  destruct (q x); simpl; [done|]. rewrite IH. by destruct (existsb q xs).
Qed.

Lemma upto_first_none (q : K -> bool) (xs : list K) :
  existsb q xs = false -> upto_first q xs = xs.
Proof.
  induction xs as [|x xs IH]; simpl; [done|].
  destruct (q x); simpl; [done|]. intros H. by rewrite IH.
Qed.

Lemma forallb_existsb (p : K -> bool) (xs : list K) :
  forallb p xs = negb (existsb (fun k => negb (p k)) xs).
Proof.
  induction xs as [|x xs IH]; simpl; [done|]. rewrite IH. by destruct (p x).
Qed.

Lemma elem_of_preorder t k : k ∈ preorder t <-> k ∈ keys t.
Proof.
  induction t as [|l IHl y vy r IHr|l IHl y vy r IHr]; simpl; [done|..];
    rewrite ?keys_red_node, ?keys_black_node, elem_of_cons, !elem_of_app,
      elem_of_cons, IHl, IHr; tauto.
Qed.

Lemma all_logged (p : K -> bool) t log :
  l_rbnode_all___main___at_rbtree_all___spec__1___rarg (logged p) t log =
  (forallb p (preorder t),
   log ++ upto_first (fun k => negb (p k)) (preorder t)).
Proof.
  revert log.
  induction t as [|l IHl y vy r IHr|l IHl y vy r IHr]; intros log; simpl;
    [by rewrite app_nil_r|..].
  all: unfold logged at 1; destruct (p y) eqn:Hy; simpl; [|done].
  all: rewrite IHl, upto_first_app, forallb_app, (forallb_existsb p (preorder l)).
  all: destruct (existsb _ (preorder l)) eqn:Hl; simpl;
    [by rewrite <- app_assoc|].
  all: rewrite IHr, (upto_first_none _ _ Hl). 
  all: by rewrite <- !app_assoc.
Qed.

Lemma any_logged (p : K -> bool) t log :
  l_rbnode_any___main___at_rbtree_any___spec__1___rarg (logged p) t log =
  (existsb p (preorder t), log ++ upto_first p (preorder t)).
Proof.
  revert log.
  induction t as [|l IHl y vy r IHr|l IHl y vy r IHr]; intros log; simpl;
    [by rewrite app_nil_r|..].
  all: unfold logged at 1; destruct (p y) eqn:Hy; simpl; [done|].
  all: rewrite IHl, upto_first_app, existsb_app.
  all: destruct (existsb _ (preorder l)) eqn:Hl; simpl;
    [by rewrite <- app_assoc|].
  all: rewrite IHr, (upto_first_none _ _ Hl).
  all: by rewrite <- !app_assoc.
Qed.

End Traversals.

(** *** The comparator used in the examples *)

Lemma ltb_strict_weak_order : strict_weak_order Nat.ltb.
Proof.
  split.
  - intros a. apply Nat.ltb_irrefl.
  - intros a b c. rewrite !Nat.ltb_lt. lia.
  - intros a b c. rewrite !Nat.ltb_ge. lia.
Qed.

(** The scenario of the specification: the keys 5, 3, 8, 1, 4, 7, 9
    inserted in this order are listed in ascending order. *)
Example to_list_scenario :
  l_rbtree_to__list___rarg
    (foldl (l_rbtree_insert___rarg Nat.ltb) leaf [5; 3; 8; 1; 4; 7; 9])
  = [1; 3; 4; 5; 7; 8; 9].
Proof. reflexivity. Qed.

Example find_empty (k : nat) :
  l_rbtree_find___rarg Nat.ltb (leaf : rbnode nat unit) k = None.
Proof. reflexivity. Qed.

Example subset_direction :
  let a := foldl (l_rbtree_insert___rarg Nat.ltb) leaf [1] in
  let b := foldl (l_rbtree_insert___rarg Nat.ltb) leaf [1; 2] in
  l_rbtree_subset___rarg Nat.ltb a b = true /\
  l_rbtree_subset___rarg Nat.ltb b a = false.
Proof. split; reflexivity. Qed.

(** *** Main results *)

(** C1, as stated, fails: [find] does not return the value that was
    inserted.  Here the entry [(1, 0)] is inserted into the empty tree and
    [find] answers with the stored key [1], not with the value [0]. *)
Lemma find_insert_returns_key :
  l_rbtree_find___rarg Nat.ltb
    (l_rbnode_insert___at_rbtree_insert___spec__2___rarg Nat.ltb
       (leaf : rbnode nat nat) 1 0) 1 = Some 1 /\
  l_rbtree_find___rarg Nat.ltb
    (l_rbnode_insert___at_rbtree_insert___spec__2___rarg Nat.ltb
       (leaf : rbnode nat nat) 1 0) 1 <> Some 0.
Proof. split; [reflexivity|discriminate]. Qed.

(** C1, amended: for a strict weak ordering, every tree grown by [insert]
    satisfies the search-order invariant, and on every tree that satisfies
    it, looking up [k] right after inserting the entry [(k, v)] succeeds:
    [find] returns the stored key, which is [k] itself, and the entry found
    by [find_core] is [(k, v)]. *)
Theorem find_insert {K V : Type} (lt : K -> K -> bool) (t : rbnode K V) k v :
  strict_weak_order lt ->
  (well_formed lt t -> ordered lt t) /\
  (ordered lt t ->
   l_rbtree_find___rarg lt
     (l_rbnode_insert___at_rbtree_insert___spec__2___rarg lt t k v) k = Some k /\
   l_rbnode_find__core___main___at_rbtree_find___spec__2___rarg lt
     (l_rbnode_insert___at_rbtree_insert___spec__2___rarg lt t k v) k
   = Some (k, v)).
Proof.
  intros Hlt. split; [by apply well_formed_ordered|].
  intros Ht. unfold l_rbtree_find___rarg.
  by rewrite find_core_insert.
Qed.

Lemma find_insert_witness :
  let t := foldl (l_rbtree_insert___rarg Nat.ltb) leaf [5; 3; 8] in
  strict_weak_order Nat.ltb /\ well_formed Nat.ltb t /\ ordered Nat.ltb t /\
  l_rbtree_find___rarg Nat.ltb (l_rbtree_insert___rarg Nat.ltb t 4) 4 = Some 4.
Proof.
  assert (H : well_formed Nat.ltb
    (foldl (l_rbtree_insert___rarg Nat.ltb) leaf [5; 3; 8])).
  { unfold foldl, l_rbtree_insert___rarg. repeat constructor. }
  pose proof (find_insert Nat.ltb
                (foldl (l_rbtree_insert___rarg Nat.ltb) leaf [5; 3; 8]) 4 tt
                ltb_strict_weak_order) as [Ho Hf].
  split; [exact ltb_strict_weak_order|]. split; [exact H|].
  split; [exact (Ho H)|]. exact (proj1 (Hf (Ho H))).
Defined.

(** C2: a tree built from the empty tree by inserts has no red node with a
    red child, and all its root-to-leaf paths count the same number of
    black nodes.  This holds for every comparator, a strict weak ordering
    in particular. *)
Theorem insert_red_black {K V : Type} (lt : K -> K -> bool) (t : rbnode K V) :
  well_formed lt t ->
  red_red_free t = true /\
  exists n, forall m, m ∈ black_counts t -> m = n.
Proof.
  intros (Hrr & _ & n & Hn)%well_formed_red_black. split; [done|].
  exists n. by apply black_height_counts.
Qed.

Lemma insert_red_black_witness :
  let t := foldl (l_rbtree_insert___rarg Nat.ltb) leaf [5; 3; 8; 1; 4; 7; 9] in
  well_formed Nat.ltb t /\
  red_red_free t = true /\
  exists n, forall m, m ∈ black_counts t -> m = n.
Proof.
  assert (H : well_formed Nat.ltb
    (foldl (l_rbtree_insert___rarg Nat.ltb) leaf [5; 3; 8; 1; 4; 7; 9])).
  { unfold foldl, l_rbtree_insert___rarg. repeat constructor. }
  split; [exact H|]. exact (insert_red_black Nat.ltb _ H).
Defined.

(** C3, as stated, fails: [to_list] does not return the pairs of a key and
    a value.  The reverse fold conses field [1] of each node, the key, and
    never reads field [2]: the tree holding the entry [(1, 7)] and the tree
    holding the entry [(1, 9)] both give the list [[1]]. *)
Lemma to_list_drops_values :
  inorder (l_rbnode_insert___at_rbtree_insert___spec__2___rarg Nat.ltb
             (leaf : rbnode nat nat) 1 7) = [(1, 7)] /\
  inorder (l_rbnode_insert___at_rbtree_insert___spec__2___rarg Nat.ltb
             (leaf : rbnode nat nat) 1 9) = [(1, 9)] /\
  l_rbtree_to__list___rarg
    (l_rbnode_insert___at_rbtree_insert___spec__2___rarg Nat.ltb
       (leaf : rbnode nat nat) 1 7) = [1] /\
  l_rbtree_to__list___rarg
    (l_rbnode_insert___at_rbtree_insert___spec__2___rarg Nat.ltb
       (leaf : rbnode nat nat) 1 9) = [1].
Proof. repeat split; reflexivity. Qed.

(** C3, amended: for a strict weak ordering, the list returned by
    [to_list] for a tree built from the empty tree by inserts is the list
    of the keys of the tree in symmetric order, without the values, and it
    is strictly ascending under the comparator. *)
Theorem to_list_ascending {K V : Type} (lt : K -> K -> bool) (t : rbnode K V) :
  strict_weak_order lt -> well_formed lt t ->
  l_rbtree_to__list___rarg t = keys t /\
  ascending lt (l_rbtree_to__list___rarg t).
Proof.
  intros Hlt Ht. rewrite to_list_keys. split; [done|].
  by apply well_formed_ordered.
Qed.

Lemma to_list_ascending_witness :
  let t := foldl (l_rbtree_insert___rarg Nat.ltb) leaf [5; 3; 8; 1; 4; 7; 9] in
  strict_weak_order Nat.ltb /\ well_formed Nat.ltb t /\
  ascending Nat.ltb (l_rbtree_to__list___rarg t).
Proof.
  assert (H : well_formed Nat.ltb
    (foldl (l_rbtree_insert___rarg Nat.ltb) leaf [5; 3; 8; 1; 4; 7; 9])).
  { unfold foldl, l_rbtree_insert___rarg. repeat constructor. }
  split; [exact ltb_strict_weak_order|]. split; [exact H|].
  exact (proj2 (to_list_ascending Nat.ltb _ ltb_strict_weak_order H)).
Defined.




(** C7: [subset t1 t2] is true exactly when every key of [t1] is found in
    [t2]; the first tree is the one contained in the second. *)
Theorem subset_spec {K V : Type} (lt : K -> K -> bool) (t1 t2 : rbnode K V) :
  l_rbtree_subset___rarg lt t1 t2 = true <->
  forall k, k ∈ keys t1 -> is_Some (l_rbtree_find___rarg lt t2 k).
Proof. apply all_subset_spec. Qed.

(** C8, as stated, fails: the traversal is not in symmetric order.  With
    the keys 1, 2, 3 and a predicate that fails on 1 and on 2, [all] asks
    the root 2 first and stops there, while the first failing element of
    the symmetric order is 1, which is never visited. *)
Lemma all_visits_root_first :
  let t := foldl (l_rbtree_insert___rarg Nat.ltb) leaf [2; 1; 3] in
  let p := fun k => 2 <? k in
  keys t = [1; 2; 3] /\
  l_rbtree_all___rarg t (logged p) [] = (false, [2]) /\
  (l_rbtree_all___rarg t (logged p) []).2
    <> upto_first (fun k => negb (p k)) (keys t).
Proof. split; [reflexivity|]. split; [reflexivity|discriminate]. Qed.

(** C8, amended: [all] and [any] apply the predicate to the keys in the
    order node, left subtree, right subtree; [all] stops at the first key
    of that order on which the predicate fails and [any] at the first on
    which it succeeds, the remaining keys are not visited.  [all] is true
    exactly when the predicate holds of every key and [any] exactly when it
    holds of some key. *)
Theorem all_any_spec {K V : Type} (p : K -> bool) (t : rbnode K V) (log : list K) :
  l_rbtree_all___rarg t (logged p) log =
    (forallb p (preorder t),
     log ++ upto_first (fun k => negb (p k)) (preorder t)) /\
  l_rbtree_any___rarg t (logged p) log =
    (existsb p (preorder t), log ++ upto_first p (preorder t)) /\
  (forallb p (preorder t) = true <-> forall k, k ∈ keys t -> p k = true) /\
  (existsb p (preorder t) = true <-> exists k, k ∈ keys t /\ p k = true).
Proof.
  split_and!.
  - apply all_logged.
  - apply any_logged.
  - rewrite forallb_forall. split; intros H k Hk.
    + apply H, list_elem_of_In, elem_of_preorder, Hk.
    + apply H, elem_of_preorder, list_elem_of_In, Hk.
  - rewrite existsb_exists. split; intros (k & Hk & Hp); exists k.
    + split; [|done]. by apply elem_of_preorder, list_elem_of_In.
    + split; [|done]. by apply list_elem_of_In, elem_of_preorder.
Qed.

End RBTreeFacts.

(** ** Part 5: properties of the bounded fixpoint *)

Module FixFacts.
Import Fix.

(** The body as compiled: a test of the fuel against zero and a
    predecessor. *)
Lemma bfix_unfold {A B : Type} (x_0 : A -> B) (x_1 : (A -> B) -> A -> B) x_2 x_3 :
  l_bfix___main___rarg x_0 x_1 x_2 x_3 =
  if Nat.eqb x_2 0 then x_0 x_3
  else x_1 (l_bfix___main___rarg x_0 x_1 (x_2 - 1)) x_3.
Proof. destruct x_2; simpl; [done|]. by rewrite Nat.sub_0_r. Qed.

(** The run with the calls counted returns the value of the plain run,
    for closures that return the same values. *)
Lemma bfix_counted_value {A B : Type}
    (base0 : A -> B) (step0 : (A -> B) -> A -> B)
    (base : A -> counted B) (step : (A -> counted B) -> A -> counted B) :
  (forall x c, (base x c).1 = base0 x) ->
  (forall k k0, (forall y c, (k y c).1 = k0 y) ->
     forall x c, (step k x c).1 = step0 k0 x) ->
  forall n x c,
    (bfix_counted base step n x c).1 = l_bfix___main___rarg base0 step0 n x.
Proof.
  intros Hbase Hstep n. induction n as [|n IH]; intros x c; simpl; [done|].
  by apply Hstep.
Qed.

Lemma bfix_counted_calls {A B : Type}
    (base : A -> counted B) (step : (A -> counted B) -> A -> counted B) :
  (forall x c, (base x c).2 = c) ->
  (forall k m, (forall y c, (k y c).2 <= c + m) ->
     forall x c, (step k x c).2 <= c + m) ->
  forall n x c, (bfix_counted base step n x c).2 <= c + n.
Proof.
  intros Hbase Hstep n. induction n as [|n IH]; intros x c; simpl.
  - rewrite Hbase. lia.
  - pose proof (Hstep (bfix_counted base step n) n IH x (S c)). lia.
Qed.

Lemma countdown_step_once (k : nat -> counted nat) m :
  (forall y c, (k y c).2 <= c + m) ->
  forall x c, (countdown_step k x c).2 <= c + m.
Proof.
  intros Hk [|p] c; simpl; [lia|].
  specialize (Hk p c). by destruct (k p c).
Qed.

(** C9, as stated, fails: the step can be applied more often than the
    fuel.  With fuel 3 and a step that calls its continuation twice, the
    step is applied 7 times (once at fuel 3, twice at fuel 2, four times
    at fuel 1) before the result 8 is returned, which is also the result
    of the plain run. *)
Lemma bfix_step_applied_more_than_fuel :
  bfix_counted (fun _ calls => (1, calls)) twice_step 3 0 0 = (8, 7) /\
  l_bfix___main___rarg (fun _ => 1) (fun k x => k x + k x) 3 0 = 8.
Proof. split; reflexivity. Qed.

(** C9, amended: with no fuel [bfix] is the base case and with fuel
    [n + 1] it is the step applied to [bfix] with fuel [n] and to the
    argument, so [bfix] with fuel [n] is the step nested [n] times around
    the base case: the fuel bounds the depth of the nested calls, not
    their number.  A run that counts the calls of the step returns the same
    value, and when the step calls its continuation at most once (whatever
    a call of the continuation costs, the step costs no more), the step is
    applied at most fuel times.  [bfix] is a structural recursion on the
    fuel. *)
Theorem bfix_spec {A B : Type} :
  (forall (base : A -> B) (step : (A -> B) -> A -> B),
     (forall x, l_bfix___main___rarg base step 0 x = base x) /\
     (forall n x,
        l_bfix___main___rarg base step (S n) x =
        step (l_bfix___main___rarg base step n) x) /\
     (forall n, l_bfix___main___rarg base step n = Nat.iter n step base)) /\
  (forall (base0 : A -> B) (step0 : (A -> B) -> A -> B)
          (base : A -> counted B) (step : (A -> counted B) -> A -> counted B),
     (forall x c, (base x c).1 = base0 x) ->
     (forall k k0, (forall y c, (k y c).1 = k0 y) ->
        forall x c, (step k x c).1 = step0 k0 x) ->
     forall n x c,
       (bfix_counted base step n x c).1 = l_bfix___main___rarg base0 step0 n x) /\
  (forall (base : A -> counted B) (step : (A -> counted B) -> A -> counted B),
     (forall x c, (base x c).2 = c) ->
     (forall k m, (forall y c, (k y c).2 <= c + m) ->
        forall x c, (step k x c).2 <= c + m) ->
     forall n x c, (bfix_counted base step n x c).2 <= c + n).
Proof.
  split_and!.
  - intros base step. split_and!; try done.
    intros n. induction n as [|n IH]; [done|].
    change (step (l_bfix___main___rarg base step n)
            = step (Nat.iter n step base)).
    by rewrite IH.
  - apply bfix_counted_value.
  - apply bfix_counted_calls.
Qed.

Lemma bfix_spec_witness :
  (forall (x c : nat), ((fun (_ : nat) (calls : nat) => (1, calls)) x c).2 = c) /\
  (forall (k : nat -> counted nat) m, (forall y c, (k y c).2 <= c + m) ->
     forall x c, (countdown_step k x c).2 <= c + m) /\
  bfix_counted (fun _ calls => (1, calls)) countdown_step 5 3 0 = (6, 4) /\
  (bfix_counted (fun _ calls => (1, calls)) countdown_step 5 3 0).2 <= 0 + 5.
Proof.
  split; [reflexivity|]. split; [exact countdown_step_once|].
  split; [reflexivity|].
  exact (proj2 (proj2 (@bfix_spec nat nat))
           (fun _ calls => (1, calls)) countdown_step
           (fun _ _ => eq_refl) countdown_step_once 5 3 0).
Defined.

End FixFacts.

(** ** Part 6: properties of the backward-lemma index *)

Module BackwardLemmasFacts.
Import BackwardLemmas.

Section Index.
Variable LEAN_DEFAULT_PRIORITY : nat.

Local Abbreviation prio := (backward_lemma_prio_fn LEAN_DEFAULT_PRIORITY).
Local Abbreviation declared_type ctx c := (try_to_pi ctx (declaration_type ctx c)).

Lemma is_constant_kind fn : is_constant fn = true <-> kind fn = Constant.
Proof. by destruct fn. Qed.

Lemma head_index_of_kind fn : hi_kind (head_index_of fn) = kind fn.
Proof. done. Qed.

(** One round of the constructor's loop, for a declaration whose binders
    are stripped within the bound. *)
Lemma index_loop_step ctx fuel lemmas i c m log :
  lemmas !! i = Some c ->
  is_Some (strip_pis ctx fuel 0 (declared_type ctx c)) ->
  index_loop LEAN_DEFAULT_PRIORITY ctx fuel lemmas (S i) m log =
  index_loop LEAN_DEFAULT_PRIORITY ctx fuel lemmas i
    (index_step LEAN_DEFAULT_PRIORITY ctx fuel m c)
    (log ++ discard_traces ctx fuel [c]).
Proof.
  intros Hc [ty Hty]. simpl. rewrite Hc.
  unfold bind, get_backward_target_of_name, get_backward_target,
    index_step, discard_traces.
  rewrite filter_cons, filter_nil. unfold constant_target. rewrite Hty. simpl.
  destruct (is_constant (get_app_fn ty)) eqn:Hfn; simpl.
  - apply is_constant_kind in Hfn. rewrite Hfn.
    rewrite bool_decide_eq_true_2 by done. simpl. by rewrite app_nil_r.
  - destruct (is_local (get_app_fn ty)) eqn:Hloc; simpl; [|done].
    rewrite bool_decide_eq_false_2; [done|].
    intros Hk. apply is_constant_kind in Hk. congruence.
Qed.

Lemma index_loop_spec ctx fuel lemmas i m log :
  (forall c, c ∈ lemmas -> is_Some (strip_pis ctx fuel 0 (declared_type ctx c))) ->
  i <= length lemmas ->
  index_loop LEAN_DEFAULT_PRIORITY ctx fuel lemmas i m log =
  value (foldl (index_step LEAN_DEFAULT_PRIORITY ctx fuel) m (reverse (take i lemmas)))
        (log ++ discard_traces ctx fuel (reverse (take i lemmas))).
Proof.
  intros Hfuel. revert m log.
  induction i as [|i IH]; intros m log Hi.
  - simpl. unfold ret, discard_traces. by rewrite take_0, app_nil_r.
  - destruct (lookup_lt_is_Some_2 lemmas i) as [c Hc]; [lia|].
    rewrite (index_loop_step _ _ _ _ c) by eauto using list_elem_of_lookup_2.
    rewrite IH by lia. rewrite (take_S_r _ _ c), reverse_snoc by done. simpl.
    f_equal. rewrite <- app_assoc. f_equal.
    unfold discard_traces. rewrite <- fmap_app. f_equal.
    rewrite !(filter_cons _ c), filter_nil. by destruct (decide _).
Qed.

(** *** Priority order *)

Lemma insert_prio_elem m v vs x :
  x ∈ insert_prio LEAN_DEFAULT_PRIORITY m v vs -> x = v \/ x ∈ vs.
Proof.
  induction vs as [|w ws IH]; simpl.
  - rewrite list_elem_of_singleton. auto.
  - destruct (_ <=? _); rewrite !elem_of_cons; intuition.
Qed.

Lemma insert_prio_sorted prios m v vs :
  m_prios m = prios ->
  descending LEAN_DEFAULT_PRIORITY prios vs ->
  descending LEAN_DEFAULT_PRIORITY prios (insert_prio LEAN_DEFAULT_PRIORITY m v vs).
Proof.
  intros <-. unfold descending. induction vs as [|w ws IH]; simpl.
  - intros _. repeat constructor.
  - rewrite StronglySorted_cons. intros [Hw Hws].
    unfold get_priority at 1 2.
    destruct (_ <=? _) eqn:E.
    + apply Nat.leb_le in E. rewrite !StronglySorted_cons.
      split_and!; [|done..]. constructor; [done|].
      eapply Forall_impl; [exact Hw|]. intros b Hb. simpl in Hb. lia.
    + apply Nat.leb_gt in E. rewrite StronglySorted_cons. split; [|auto].
      rewrite Forall_forall. intros b Hb.
      apply insert_prio_elem in Hb as [->|Hb]; [lia|].
      rewrite Forall_forall in Hw. auto.
Qed.

Lemma filter_sorted {A} (R : relation A) (P : A -> Prop)
    `{!forall x, Decision (P x)} (vs : list A) :
  StronglySorted R vs -> StronglySorted R (filter P vs).
Proof.
  induction vs as [|w ws IH]; [done|].
  rewrite StronglySorted_cons. intros [Hw Hws]. rewrite filter_cons.
  destruct (decide (P w)); [|auto].
  rewrite StronglySorted_cons. split; [|auto].
  rewrite Forall_forall in *. intros b [_ Hb]%list_elem_of_filter. auto.
Qed.

Lemma head_map_insert_sorted prios h v m :
  head_map_sorted LEAN_DEFAULT_PRIORITY prios m ->
  head_map_sorted LEAN_DEFAULT_PRIORITY prios
    (head_map_insert LEAN_DEFAULT_PRIORITY h v m).
Proof.
  intros [Hp Hm]. split; [done|]. simpl. intros h' vs.
  destruct (decide (h = h')) as [<-|Hne].
  - rewrite lookup_insert_eq. intros [= <-].
    apply insert_prio_sorted; [done|].
    destruct (m_map m !! h) as [ws|] eqn:E; simpl; [by eapply Hm|constructor].
  - rewrite lookup_insert_ne by done. apply Hm.
Qed.

Lemma head_map_erase_sorted prios h v m :
  head_map_sorted LEAN_DEFAULT_PRIORITY prios m ->
  head_map_sorted LEAN_DEFAULT_PRIORITY prios (head_map_erase h v m).
Proof.
  intros [Hp Hm]. unfold head_map_erase.
  destruct (m_map m !! h) as [ws|] eqn:E; [|done].
  split; [done|]. simpl. intros h' vs.
  destruct (decide (h = h')) as [<-|Hne].
  - rewrite lookup_insert_eq. intros [= <-]. apply filter_sorted. by eapply Hm.
  - rewrite lookup_insert_ne by done. apply Hm.
Qed.

Lemma index_loop_sorted prios ctx fuel lemmas i m log m' log' :
  head_map_sorted LEAN_DEFAULT_PRIORITY prios m ->
  index_loop LEAN_DEFAULT_PRIORITY ctx fuel lemmas i m log = value m' log' ->
  head_map_sorted LEAN_DEFAULT_PRIORITY prios m'.
Proof.
  revert m log. induction i as [|i IH]; intros m log Hm; simpl.
  - by intros [= <- _].
  - destruct (lemmas !! i) as [c|]; [|by intros [= <- _]].
    unfold bind. destruct (get_backward_target_of_name ctx fuel c log)
      as [[h|] log1| |]; try done.
    + destruct (negb _); [by apply IH|].
      apply IH. by apply head_map_insert_sorted.
    + by apply IH.
Qed.

Lemma reachable_sorted ctx idx :
  reachable LEAN_DEFAULT_PRIORITY ctx idx ->
  head_map_sorted LEAN_DEFAULT_PRIORITY (intro_prios ctx) (m_index idx).
Proof.
  induction 1 as [fuel log idx log' Hmk
                 |ctx' fuel href idx log idx' log' _ IH Hins
                 |ctx' fuel href idx log idx' log' _ IH Her].
  - unfold mk_backward_lemma_index, bind in Hmk.
    destruct (index_loop _ _ _ _ _ _ _) as [m log1| |] eqn:E; try done.
    injection Hmk as <- _. simpl.
    eapply index_loop_sorted; [|exact E].
    split; [done|]. simpl. intros h vs. by rewrite lookup_empty.
  - unfold insert, bind in Hins.
    destruct (get_backward_target _ _ _ _) as [[h|] log1| |]; try done;
      injection Hins as <- _; [|done].
    by apply head_map_insert_sorted.
  - unfold erase, bind in Her.
    destruct (get_backward_target _ _ _ _) as [[h|] log1| |]; try done;
      injection Her as <- _; [|done].
    by apply head_map_erase_sorted.
Qed.

Lemma find_sorted prios idx h :
  head_map_sorted LEAN_DEFAULT_PRIORITY prios (m_index idx) ->
  descending LEAN_DEFAULT_PRIORITY prios (find idx h).
Proof.
  intros [_ Hm]. unfold find, head_map_find.
  destruct (m_map (m_index idx) !! h) as [vs|] eqn:E; [by eapply Hm|constructor].
Qed.

(** *** What [find] returns *)

(** The declarations of a list that are filed under the head [h]. *)
Local Abbreviation filed ctx fuel cs h :=
  (lemma_of_name <$> filter (fun c => constant_target ctx fuel c = Some h) cs).

Lemma insert_prio_perm m v vs :
  insert_prio LEAN_DEFAULT_PRIORITY m v vs ≡ₚ v :: vs.
Proof.
  induction vs as [|w ws IH]; simpl; [done|].
  destruct (_ <=? _); [done|]. rewrite IH. apply perm_swap.
Qed.

Lemma find_lookup idx h : find idx h = default [] (m_map (m_index idx) !! h).
Proof. unfold find, head_map_find. by destruct (_ !! h). Qed.

Lemma index_step_filed ctx fuel m c cs :
  (forall h, default [] (m_map m !! h) ≡ₚ filed ctx fuel cs h) ->
  forall h,
    default [] (m_map (index_step LEAN_DEFAULT_PRIORITY ctx fuel m c) !! h)
    ≡ₚ filed ctx fuel (c :: cs) h.
Proof.
  intros Hm h. unfold index_step. rewrite filter_cons.
  destruct (decide _) as [Hd|Hd].
  - rewrite Hd. simpl. rewrite lookup_insert_eq. simpl.
    by rewrite insert_prio_perm, Hm.
  - destruct (constant_target ctx fuel c) as [h0|]; [|apply Hm].
    simpl. rewrite lookup_insert_ne by congruence. apply Hm.
Qed.

Lemma index_loop_filed ctx fuel lemmas i m log m' log' cs :
  i <= length lemmas ->
  (forall h, default [] (m_map m !! h) ≡ₚ filed ctx fuel cs h) ->
  index_loop LEAN_DEFAULT_PRIORITY ctx fuel lemmas i m log = value m' log' ->
  forall h, default [] (m_map m' !! h) ≡ₚ filed ctx fuel (take i lemmas ++ cs) h.
Proof.
  revert m log cs. induction i as [|i IH]; intros m log cs Hi Hm.
  - simpl. by intros [= <- _].
  - destruct (lookup_lt_is_Some_2 lemmas i) as [c Hc]; [lia|].
    destruct (strip_pis ctx fuel 0 (declared_type ctx c)) as [ty|] eqn:E.
    + rewrite (index_loop_step _ _ _ _ c) by eauto. intros Hloop h.
      rewrite (take_S_r _ _ c), <- app_assoc by done. simpl.
      eapply (IH _ _ (c :: cs)); [lia| |exact Hloop].
      by apply index_step_filed.
    + simpl. rewrite Hc.
      unfold bind, get_backward_target_of_name, get_backward_target.
      by rewrite E.
Qed.

Lemma mk_backward_lemma_index_filed ctx fuel log idx log' h :
  mk_backward_lemma_index LEAN_DEFAULT_PRIORITY ctx fuel log = value idx log' ->
  find idx h ≡ₚ filed ctx fuel (intro_instances ctx) h.
Proof.
  unfold mk_backward_lemma_index, bind. intros Hmk.
  destruct (index_loop _ _ _ _ _ _ _) as [m log1| |] eqn:E; try done.
  injection Hmk as <- _. rewrite find_lookup. simpl.
  pose proof (index_loop_filed _ _ _ _ _ _ _ _ [] (Nat.le_refl _)
                (fun h => reflexivity _) E h) as H.
  by rewrite firstn_all, app_nil_r in H.
Qed.

Lemma get_backward_target_log ctx fuel ty log r log' :
  get_backward_target ctx fuel ty log = value r log' -> log' = log.
Proof.
  unfold get_backward_target. destruct (strip_pis ctx fuel 0 ty); [|done].
  destruct (_ || _); by intros [= _ <-].
Qed.

Lemma insert_find ctx fuel href idx log idx' log' h :
  insert LEAN_DEFAULT_PRIORITY ctx fuel href idx log = value idx' log' ->
  (get_backward_target ctx fuel (infer ctx href) log = value (Some h) log ->
     find idx' h ≡ₚ lemma_of_expr href :: find idx h) /\
  (get_backward_target ctx fuel (infer ctx href) log <> value (Some h) log ->
     find idx' h = find idx h).
Proof.
  unfold insert, bind.
  destruct (get_backward_target ctx fuel (infer ctx href) log)
    as [[h0|] log1| |] eqn:E; try done.
  - intros [= <- _]. apply get_backward_target_log in E as ->.
    rewrite !find_lookup. simpl. split.
    + intros [= ->]. rewrite lookup_insert_eq. simpl. apply insert_prio_perm.
    + intros Hne. rewrite lookup_insert_ne; [done|]. congruence.
  - by intros [= <- _].
Qed.

End Index.

(** The scenario of the specification: two lemmas with priorities 10 and 5
    for the head ["Foo"], whichever was declared first. *)
Example find_scenario :
  find example_index Foo = [lemma_of_name "p10"; lemma_of_name "p5"].
Proof. vm_compute. reflexivity. Qed.

(** A local hypothesis has the default priority, here above both. *)
Example insert_scenario :
  match insert 1000 example_ctx 5 (mk_local "h") example_index [] with
  | value idx _ => find idx Foo
  | _ => []
  end = [lemma_of_expr (mk_local "h"); lemma_of_name "p10"; lemma_of_name "p5"].
Proof. vm_compute. reflexivity. Qed.

(** *** Main results *)

(** C5: in every index a tactic can hold, [find] returns the lemmas of a
    head in descending priority order, so a lemma of higher priority never
    comes after one of lower priority (one of priority 10 comes before one
    of priority 5).  The priority of a declaration is the one recorded for
    it with the attribute, the default constant when none is recorded; a
    local hypothesis has the default priority.  What [find] returns for a
    head is what was filed under it: in the index the constructor returns,
    the declarations with the attribute whose conclusion has that constant
    head, each once; after [insert] of a local hypothesis with that head,
    the hypothesis and what was there before, and for any other head what
    was there before. *)
Theorem find_descending (LEAN_DEFAULT_PRIORITY : nat) ctx idx h :
  reachable LEAN_DEFAULT_PRIORITY ctx idx ->
  m_prios (m_index idx) = intro_prios ctx /\
  descending LEAN_DEFAULT_PRIORITY (intro_prios ctx) (find idx h) /\
  (forall a b l1 l2 l3,
     find idx h = l1 ++ b :: l2 ++ a :: l3 ->
     backward_lemma_prio_fn LEAN_DEFAULT_PRIORITY (intro_prios ctx) a
     <= backward_lemma_prio_fn LEAN_DEFAULT_PRIORITY (intro_prios ctx) b) /\
  (forall n,
     backward_lemma_prio_fn LEAN_DEFAULT_PRIORITY (intro_prios ctx) (lemma_of_name n)
     = default LEAN_DEFAULT_PRIORITY (intro_prios ctx !! n)) /\
  (forall e,
     backward_lemma_prio_fn LEAN_DEFAULT_PRIORITY (intro_prios ctx) (lemma_of_expr e)
     = LEAN_DEFAULT_PRIORITY) /\
  (forall fuel log log',
     mk_backward_lemma_index LEAN_DEFAULT_PRIORITY ctx fuel log = value idx log' ->
     find idx h ≡ₚ
     lemma_of_name <$>
       filter (fun c => constant_target ctx fuel c = Some h) (intro_instances ctx)) /\
  (forall ctx' fuel href log idx' log',
     insert LEAN_DEFAULT_PRIORITY ctx' fuel href idx log = value idx' log' ->
     descending LEAN_DEFAULT_PRIORITY (intro_prios ctx) (find idx' h) /\
     (get_backward_target ctx' fuel (infer ctx' href) log = value (Some h) log ->
        find idx' h ≡ₚ lemma_of_expr href :: find idx h) /\
     (get_backward_target ctx' fuel (infer ctx' href) log <> value (Some h) log ->
        find idx' h = find idx h)).
Proof.
  intros Hreach. pose proof (reachable_sorted _ _ _ Hreach) as Hidx.
  pose proof (find_sorted _ _ _ h Hidx) as Hfind.
  split_and!.
  - apply Hidx.
  - done.
  - intros a b l1 l2 l3 E. unfold descending in Hfind. rewrite E in Hfind.
    apply StronglySorted_app in Hfind as (_ & _ & Hb).
    apply StronglySorted_cons in Hb as [Hb _].
    rewrite Forall_app, Forall_cons in Hb. tauto.
  - intros n. unfold backward_lemma_prio_fn. simpl.
    by destruct (intro_prios ctx !! n).
  - done.
  - intros fuel log log' Hmk. by eapply mk_backward_lemma_index_filed.
  - intros ctx' fuel href log idx' log' Hins. split.
    + apply find_sorted, reachable_sorted.
      by eapply reachable_insert.
    + by eapply insert_find.
Qed.

Lemma find_descending_witness :
  reachable 1000 example_ctx example_index /\
  find example_index Foo = [lemma_of_name "p10"; lemma_of_name "p5"] /\
  descending 1000 (intro_prios example_ctx) (find example_index Foo) /\
  find example_index Foo ≡ₚ
  lemma_of_name <$>
    filter (fun c => constant_target example_ctx 5 c = Some Foo)
      (intro_instances example_ctx).
Proof.
  assert (Hmk : mk_backward_lemma_index 1000 example_ctx 5 []
                = value example_index (discard_traces example_ctx 5 ["hd"])).
  { vm_compute. reflexivity. }
  assert (H : reachable 1000 example_ctx example_index).
  { exact (reachable_mk 1000 example_ctx 5 [] example_index _ Hmk). }
  pose proof (find_descending 1000 example_ctx example_index Foo H)
    as (_ & Hd & _ & _ & _ & Hf & _).
  split; [exact H|]. split; [vm_compute; reflexivity|].
  split; [exact Hd|]. exact (Hf 5 [] _ Hmk).
Defined.

(** C6: the handler of the attribute raises an exception, at once, for a
    declaration whose conclusion is not headed by a constant.  The
    constructor of the index does not: it returns an index; each
    declaration without a constant head is left out and a trace is requested
    for it, and the other declarations are filed as if it were not there. *)
Theorem intro_head_not_constant (LEAN_DEFAULT_PRIORITY : nat) ctx fuel :
  (forall (environment : Type) (env : environment) c ty log,
     strip_pis ctx fuel 0 (try_to_pi ctx (declaration_type ctx c)) = Some ty ->
     is_constant (get_app_fn ty) = false ->
     intro_attribute_handler env ctx fuel c log
     = raised (invalid_intro_message c) log) /\
  (forall log,
     (forall c, c ∈ intro_instances ctx ->
        is_Some (strip_pis ctx fuel 0 (try_to_pi ctx (declaration_type ctx c)))) ->
     mk_backward_lemma_index LEAN_DEFAULT_PRIORITY ctx fuel log =
     value
       {| m_index :=
            foldl (index_step LEAN_DEFAULT_PRIORITY ctx fuel)
              {| m_prios := intro_prios ctx; m_map := ∅ |}
              (reverse (intro_instances ctx)) |}
       (log ++ discard_traces ctx fuel (reverse (intro_instances ctx)))) /\
  (forall c m,
     constant_target ctx fuel c = None ->
     index_step LEAN_DEFAULT_PRIORITY ctx fuel m c = m /\
     discard_traces ctx fuel [c] = [(back_chaining, discard_message c)]).
Proof.
  split_and!.
  - intros environment env c ty log Hty Hfn.
    unfold intro_attribute_handler, bind, get_backward_target_of_name,
      get_backward_target.
    rewrite Hty. simpl. rewrite Hfn. simpl.
    destruct (is_local (get_app_fn ty)) eqn:Hloc; simpl; [|done].
    rewrite bool_decide_eq_false_2; [done|].
    intros Hk. apply is_constant_kind in Hk. congruence.
  - intros log Hfuel. unfold mk_backward_lemma_index, bind.
    rewrite index_loop_spec by done. by rewrite take_ge.
  - intros c m Hc. unfold index_step, discard_traces.
    rewrite Hc, filter_cons, decide_True by done. done.
Qed.

Lemma intro_head_not_constant_witness :
  strip_pis example_ctx 5 0 (try_to_pi example_ctx (declaration_type example_ctx "hd"))
    = Some (mk_app (mk_local "x") mk_sort) /\
  is_constant (get_app_fn (mk_app (mk_local "x") mk_sort)) = false /\
  intro_attribute_handler tt example_ctx 5 "hd" []
    = raised (invalid_intro_message "hd") [] /\
  mk_backward_lemma_index 1000 example_ctx 5 []
    = value example_index [(back_chaining, discard_message "hd")].
Proof.
  pose proof (intro_head_not_constant 1000 example_ctx 5) as (Ha & Hb & _).
  split; [reflexivity|]. split; [reflexivity|]. split.
  - apply (Ha unit tt "hd" (mk_app (mk_local "x") mk_sort) []); reflexivity.
  - rewrite (Hb []); [reflexivity|].
    intros c Hc. simpl in Hc.
    repeat (apply elem_of_cons in Hc as [->|Hc]); try (by eexists).
    by apply elem_of_nil in Hc.
Defined.

(** C10: when the type of a hypothesis is headed by neither a constant nor
    a local, [insert] and [erase] return the index they were given; they
    raise nothing and request no trace.  The constructor, in contrast,
    requests a trace for the declaration it leaves out. *)
Theorem insert_erase_unknown_head (LEAN_DEFAULT_PRIORITY : nat)
    ctx fuel href idx log ty :
  strip_pis ctx fuel 0 (infer ctx href) = Some ty ->
  is_constant (get_app_fn ty) = false ->
  is_local (get_app_fn ty) = false ->
  insert LEAN_DEFAULT_PRIORITY ctx fuel href idx log = value idx log /\
  erase ctx fuel href idx log = value idx log /\
  (forall lemmas i c m,
     lemmas !! i = Some c ->
     is_Some (strip_pis ctx fuel 0 (try_to_pi ctx (declaration_type ctx c))) ->
     constant_target ctx fuel c = None ->
     index_loop LEAN_DEFAULT_PRIORITY ctx fuel lemmas (S i) m log =
     index_loop LEAN_DEFAULT_PRIORITY ctx fuel lemmas i m
       (log ++ [(back_chaining, discard_message c)])).
Proof.
  intros Hty Hc Hl. split_and!.
  - unfold insert, bind, get_backward_target. by rewrite Hty, Hc, Hl.
  - unfold erase, bind, get_backward_target. by rewrite Hty, Hc, Hl.
  - intros lemmas i c m Hi Hfuel Hnone.
    rewrite (index_loop_step _ _ _ _ _ c) by done.
    unfold index_step, discard_traces.
    by rewrite Hnone, filter_cons, decide_True by done.
Qed.

Lemma insert_erase_unknown_head_witness :
  strip_pis example_ctx 5 0 (infer example_ctx (mk_local "g"))
    = Some (mk_app (mk_metavar "m") mk_sort) /\
  insert 1000 example_ctx 5 (mk_local "g") example_index [] = value example_index [] /\
  erase example_ctx 5 (mk_local "g") example_index [] = value example_index [].
Proof.
  split; [reflexivity|].
  pose proof (insert_erase_unknown_head 1000 example_ctx 5 (mk_local "g")
                example_index [] (mk_app (mk_metavar "m") mk_sort)
                eq_refl eq_refl eq_refl) as (Hi & He & _).
  split; [exact Hi|exact He].
Defined.

End BackwardLemmasFacts.

(** ** Part 7: properties of the remaining tree operations *)

Module RBTreeOpsFacts.
Import RBTree RBTreeOps RBTreeFacts.

Local Abbreviation rbnode_insert := l_rbnode_insert___at_rbtree_insert___spec__2___rarg.
Local Abbreviation find_core := l_rbnode_find__core___main___at_rbtree_find___spec__2___rarg.
Local Abbreviation all_subset := l_rbnode_all___main___at_rbtree_subset___spec__4___rarg.

Section ListFacts.
Context {K V : Type}.
Variable lt : K -> K -> bool.

Implicit Types L : list (K * V).

Lemma find_list_Some_inv k L y vy :
  find_list lt k L = Some (y, vy) -> (y, vy) ∈ L /\ equiv lt y k.
Proof.
  induction L as [|[x vx] L IH]; simpl; [done|].
  destruct (lt k x) eqn:E1; [done|]. destruct (lt x k) eqn:E2.
  - intros [Hin He]%IH. split; [by right|done].
  - intros [= <- <-]. split; [by left|done].
Qed.

Lemma ins_list_length k v L :
  length (ins_list lt k v L) =
  if find_list lt k L is Some _ then length L else S (length L).
Proof.
  induction L as [|[x vx] L IH]; simpl; [done|].
  destruct (lt k x) eqn:E1; simpl; [done|].
  destruct (lt x k) eqn:E2; simpl; [|done].
  rewrite IH. by destruct (find_list lt k L).
Qed.

Lemma ins_list_key_in k v L : k ∈ (ins_list lt k v L).*1.
Proof.
  induction L as [|[x vx] L IH]; simpl; [by left|].
  destruct (lt k x); simpl; [by left|].
  destruct (lt x k); simpl; [by right|by left].
Qed.

Lemma ins_list_keeps k v L y :
  y ∈ L.*1 -> ~ equiv lt y k -> y ∈ (ins_list lt k v L).*1.
Proof.
  intros Hy Hne. induction L as [|[x vx] L IH]; simpl in *;
    [by apply elem_of_nil in Hy|].
  destruct (lt k x) eqn:E1; simpl; [by right|].
  destruct (lt x k) eqn:E2; simpl.
  - apply elem_of_cons in Hy as [->|Hy]; [by left|right; auto].
  - apply elem_of_cons in Hy as [->|Hy]; [|by right].
    by destruct Hne.
Qed.

Hypothesis Hlt : strict_weak_order lt.

Lemma equiv_refl a : equiv lt a a.
Proof. split; apply (swo_irrefl lt Hlt). Qed.

Lemma equiv_sym a b : equiv lt a b -> equiv lt b a.
Proof. by intros [??]. Qed.

Lemma equiv_trans a b c : equiv lt a b -> equiv lt b c -> equiv lt a c.
Proof. intros [??] [??]. by apply (swo_incomp lt Hlt a b c). Qed.

Lemma not_equiv a b : ~ equiv lt a b -> lt a b = true \/ lt b a = true.
Proof.
  unfold equiv. destruct (lt a b), (lt b a); auto.
Qed.

Lemma find_list_complete k L y :
  ascending lt L.*1 -> y ∈ L.*1 -> equiv lt y k ->
  is_Some (find_list lt k L).
Proof.
  unfold ascending. intros Hs Hy [Hyk Hky].
  induction L as [|[x vx] L IH]; simpl in *; [by apply elem_of_nil in Hy|].
  apply StronglySorted_cons in Hs as [Hx Hs].
  apply elem_of_cons in Hy as [->|Hy].
  - rewrite Hky, Hyk. by eexists.
  - rewrite Forall_forall in Hx. specialize (Hx y Hy). simpl in Hx.
    destruct (lt_below lt Hlt x y k Hx Hky) as [-> ->]. auto.
Qed.

Lemma find_list_ins_list_other k v k' L :
  ~ equiv lt k k' ->
  find_list lt k' (ins_list lt k v L) = find_list lt k' L.
Proof.
  intros Hne%not_equiv.
  assert (Hk : lt k' k = true \/ (lt k' k = false /\ lt k k' = true)).
  { destruct (lt k' k); [by left|right]. by destruct Hne. }
  clear Hne.
  induction L as [|[x vx] L IH]; simpl.
  - by destruct Hk as [->|[-> ->]].
  - destruct (lt k x) eqn:E2; simpl.
    + destruct Hk as [E1|[E1 E4]]; rewrite E1.
      * by rewrite (swo_trans lt Hlt k' k x).
      * by rewrite E4.
    + destruct (lt x k) eqn:E3; simpl.
      * by rewrite IH.
      * destruct Hk as [E1|[E1 E4]]; rewrite E1.
        -- by destruct (lt_below lt Hlt k' k x E1 E3) as [-> _].
        -- rewrite E4.
           by destruct (lt_above lt Hlt k' k x E4 E2) as [-> ->].
Qed.

End ListFacts.

Section TreeFacts.
Context {K V : Type}.
Variable lt : K -> K -> bool.

Implicit Types t : rbnode K V.

Lemma fold_keys {S} (f : K -> S -> S) t a :
  l_rbnode_fold___main___at_rbtree_fold___spec__1___rarg f t a
  = foldl (fun acc k => f k acc) a (keys t).
Proof.
  revert a. induction t as [|l IHl y vy r IHr|l IHl y vy r IHr]; intros a;
    simpl; [done|..];
    by rewrite ?keys_red_node, ?keys_black_node, foldl_app, IHl, IHr.
Qed.

Lemma rev_fold_keys {S} (f : K -> S -> S) t a :
  l_rbnode_rev__fold___main___at_rbtree_rev__fold___spec__1___rarg f t a
  = foldr f a (keys t).
Proof.
  revert a. induction t as [|l IHl y vy r IHr|l IHl y vy r IHr]; intros a;
    simpl; [done|..];
    by rewrite ?keys_red_node, ?keys_black_node, foldr_app, IHl, IHr.
Qed.

Lemma contains_is_Some t k :
  l_rbtree_contains___rarg lt t k = true <-> is_Some (find_core lt t k).
Proof.
  unfold l_rbtree_contains___rarg,
    l_rbtree_find___at_rbtree_contains___spec__1___rarg, l_rbtree_find___rarg.
  destruct (find_core lt t k); simpl; split; done.
Qed.

Lemma find_is_Some t k :
  is_Some (l_rbtree_find___rarg lt t k) <-> is_Some (find_core lt t k).
Proof.
  unfold l_rbtree_find___rarg.
  destruct (find_core lt t k); simpl; split; done.
Qed.

Lemma empty_keys t : l_rbtree_empty___rarg t = true <-> keys t = [].
Proof.
  destruct t as [|l y vy r|l y vy r]; simpl; [done|..];
    rewrite ?keys_red_node, ?keys_black_node; split; try done;
    by destruct (keys l).
Qed.

Hypothesis Hlt : strict_weak_order lt.

Lemma contains_keys t k :
  ordered lt t ->
  l_rbtree_contains___rarg lt t k = true <->
  exists y, y ∈ keys t /\ equiv lt y k.
Proof.
  intros Ht. rewrite contains_is_Some, (find_core_inorder lt Hlt) by done.
  split.
  - intros [[y vy] Hy]. apply find_list_Some_inv in Hy as [Hin He].
    exists y. split; [|done]. unfold keys. apply list_elem_of_fmap.
    by exists (y, vy).
  - intros (y & Hin & He). by eapply (find_list_complete lt Hlt).
Qed.

Lemma contains_insert_mono t k v x :
  ordered lt t ->
  l_rbtree_contains___rarg lt t x = true ->
  l_rbtree_contains___rarg lt (rbnode_insert lt t k v) x = true.
Proof.
  intros Ht. rewrite !contains_keys by (by try apply ordered_insert).
  intros (y & Hin & He). unfold keys. rewrite (inorder_insert lt Hlt) by done.
  destruct (lt y k) eqn:E1; [|destruct (lt k y) eqn:E2].
  - exists y. split; [|done]. apply ins_list_keeps; [done|].
    intros [??]. congruence.
  - exists y. split; [|done]. apply ins_list_keeps; [done|].
    intros [??]. congruence.
  - exists k. split; [apply ins_list_key_in|].
    apply (equiv_trans lt Hlt k y x); [by split|done].
Qed.

Lemma key_contained t y :
  ordered lt t -> y ∈ keys t -> is_Some (l_rbtree_find___rarg lt t y).
Proof.
  intros Ht Hy. apply find_is_Some, contains_is_Some, contains_keys; [done|].
  exists y. split; [done|]. by apply equiv_refl.
Qed.

End TreeFacts.

Section Monadic.
Context {K V : Type} {M : Type -> Type} {S : Type}.
Variable m : monad M.
Hypothesis Hm : lawful m.

Implicit Types t : rbnode K V.

Lemma mfold_list_app (f : K -> S -> M S) (xs ys : list K) a :
  mfold_list m f (xs ++ ys) a
  = bind m (mfold_list m f xs a) (mfold_list m f ys).
Proof.
  revert a. induction xs as [|x xs IH]; intros a; simpl.
  - by rewrite (bind_pure m Hm).
  - rewrite (bind_assoc m Hm). by apply (bind_ext m Hm).
Qed.

Lemma mfold_keys (f : K -> S -> M S) t a :
  l_rbnode_mfold___main___at_rbtree_mfold___spec__1___rarg m f t a
  = mfold_list m f (keys t) a.
Proof.
  revert a. induction t as [|l IHl y vy r IHr|l IHl y vy r IHr]; intros a;
    simpl; [done|..];
    rewrite ?keys_red_node, ?keys_black_node, mfold_list_app, IHl;
    apply (bind_ext m Hm); intros b; simpl; by apply (bind_ext m Hm).
Qed.

End Monadic.

Section MonadicFor.
Context {K V : Type} {M : Type -> Type} {T : Type}.
Variable m : monad M.
Hypothesis Hm : lawful m.

Lemma mfor_keys (f : K -> M T) (t : rbnode K V) u :
  l_rbnode_mfold___main___at_rbtree_mfor___spec__1___rarg m f t u
  = mfold_list m (fun k _ => seq_right m (f k) (pure m tt)) (keys t) u.
Proof.
  revert u. induction t as [|l IHl y vy r IHr|l IHl y vy r IHr]; intros u;
    simpl; [done|..];
    rewrite ?keys_red_node, ?keys_black_node, (mfold_list_app m Hm), IHl;
    apply (bind_ext m Hm); intros b; simpl; by apply (bind_ext m Hm).
Qed.

End MonadicFor.

Lemma option_monad_lawful : lawful option_monad.
Proof.
  split.
  - done.
  - by intros A B C [].
  - intros A B [] f g H; simpl; auto.
Qed.

Section SetFacts.
Context {K : Type}.
Variable lt : K -> K -> bool.

Local Abbreviation list_foldl :=
  (l_list_foldl___main___at_rbtree_from__list___spec__5___rarg lt).

Lemma list_foldl_app t (xs ys : list K) :
  list_foldl t (xs ++ ys) = list_foldl (list_foldl t xs) ys.
Proof. revert t. induction xs as [|x xs IH]; intros t; simpl; auto. Qed.

Lemma list_foldl_well_formed t (xs : list K) :
  well_formed lt t -> well_formed lt (list_foldl t xs).
Proof.
  revert t. induction xs as [|x xs IH]; intros t Ht; simpl; [done|].
  apply IH. by constructor.
Qed.

Lemma of_list_well_formed (xs : list K) :
  well_formed lt (l_rbtree_of__list___main___rarg lt xs).
Proof. induction xs as [|x xs IH]; simpl; by constructor. Qed.

Hypothesis Hlt : strict_weak_order lt.

Lemma list_foldl_contains t (xs : list K) x :
  well_formed lt t ->
  x ∈ xs \/ l_rbtree_contains___rarg lt t x = true ->
  l_rbtree_contains___rarg lt (list_foldl t xs) x = true.
Proof.
  revert t. induction xs as [|y xs IH]; intros t Ht; simpl.
  - intros [Hx|?]; [by apply elem_of_nil in Hx|done].
  - pose proof (well_formed_ordered lt Hlt t Ht) as Ho.
    intros Hx. apply IH; [by constructor|].
    destruct Hx as [[->|Hx]%elem_of_cons|Hx]; [right|by left|right].
    + apply contains_is_Some. rewrite (find_core_insert lt Hlt) by done.
      by eexists.
    + by apply (contains_insert_mono lt Hlt).
Qed.

Lemma list_foldl_keys t (xs : list K) k :
  well_formed lt t ->
  k ∈ keys (list_foldl t xs) -> k ∈ keys t \/ k ∈ xs.
Proof.
  revert t. induction xs as [|y xs IH]; intros t Ht; simpl; [by left|].
  pose proof (well_formed_ordered lt Hlt t Ht) as Ho.
  intros [Hk|Hk]%IH; [|right; by right|by constructor].
  unfold keys in Hk. rewrite (inorder_insert lt Hlt) in Hk by done.
  apply ins_list_keys in Hk as [->|Hk]; [right; by left|by left].
Qed.

End SetFacts.

(** *** Main results *)

(** X1: [fold] is the left fold of the function over the list that
    [to_list] returns, so it meets the keys in ascending order. *)
Theorem fold_to_list {K V S : Type} (f : K -> S -> S) (t : rbnode K V) (a : S) :
  l_rbtree_fold___rarg f t a
  = foldl (fun acc k => f k acc) a (l_rbtree_to__list___rarg t).
Proof. unfold l_rbtree_fold___rarg. by rewrite fold_keys, to_list_keys. Qed.

(** X2: [rev_fold] is the right fold of the function over the list that
    [to_list] returns, so it meets the keys in descending order. *)
Theorem rev_fold_to_list {K V S : Type} (f : K -> S -> S) (t : rbnode K V) (a : S) :
  l_rbtree_rev__fold___rarg f t a = foldr f a (l_rbtree_to__list___rarg t).
Proof. unfold l_rbtree_rev__fold___rarg. by rewrite rev_fold_keys, to_list_keys. Qed.

(** X3: in a lawful monad, [mfold] runs the action once per key, in the
    order of [to_list], each run receiving the result of the one before. *)
Theorem mfold_to_list {K V S : Type} {M : Type -> Type} (m : monad M)
    (f : K -> S -> M S) (t : rbnode K V) (a : S) :
  lawful m ->
  l_rbtree_mfold___rarg m f t a = mfold_list m f (l_rbtree_to__list___rarg t) a.
Proof.
  intros Hm. unfold l_rbtree_mfold___rarg. by rewrite (mfold_keys m Hm), to_list_keys.
Qed.

Lemma mfold_to_list_witness :
  let t := foldl (l_rbtree_insert___rarg Nat.ltb) leaf [5; 3; 8] in
  let f := fun k acc => if k <? 8 then Some (k + acc) else None in
  lawful option_monad /\
  l_rbtree_mfold___rarg option_monad f t 0 = None /\
  l_rbtree_mfold___rarg option_monad (fun k acc => Some (k :: acc)) t []
  = Some [8; 5; 3].
Proof.
  split; [exact option_monad_lawful|]. split.
  - rewrite (mfold_to_list option_monad _ _ _ option_monad_lawful). reflexivity.
  - rewrite (mfold_to_list option_monad _ _ _ option_monad_lawful). reflexivity.
Defined.

(** X4: in a lawful monad, [mfor] runs the action once per key in the
    order of [to_list], each followed by [pure ()], and returns unit. *)
Theorem mfor_to_list {K V T : Type} {M : Type -> Type} (m : monad M)
    (f : K -> M T) (t : rbnode K V) :
  lawful m ->
  l_rbtree_mfor___rarg m f t
  = mfold_list m (fun k _ => seq_right m (f k) (pure m tt))
      (l_rbtree_to__list___rarg t) tt.
Proof.
  intros Hm. unfold l_rbtree_mfor___rarg. by rewrite (mfor_keys m Hm), to_list_keys.
Qed.

Lemma mfor_to_list_witness :
  let t := foldl (l_rbtree_insert___rarg Nat.ltb) leaf [5; 3; 8] in
  lawful option_monad /\
  l_rbtree_mfor___rarg option_monad (fun k => if k <? 8 then Some k else None) t
  = None /\
  l_rbtree_mfor___rarg option_monad (fun k => Some k) t = Some tt.
Proof.
  split; [exact option_monad_lawful|]. split.
  - rewrite (mfor_to_list option_monad _ _ option_monad_lawful). reflexivity.
  - rewrite (mfor_to_list option_monad _ _ option_monad_lawful). reflexivity.
Defined.

(** X5: [empty] answers true exactly for a tree without keys, and never
    for a tree that [insert] returned. *)
Theorem empty_spec {K V : Type} (t : rbnode K V) :
  (l_rbtree_empty___rarg t = true <-> l_rbtree_to__list___rarg t = []) /\
  (forall lt k v,
     l_rbtree_empty___rarg
       (l_rbnode_insert___at_rbtree_insert___spec__2___rarg lt t k v) = false).
Proof.
  split.
  - rewrite to_list_keys. apply empty_keys.
  - intros lt k v.
    unfold l_rbnode_insert___at_rbtree_insert___spec__2___rarg.
    pose proof (ins_not_leaf lt t k v) as H.
    destruct (l_rbnode_ins___main___at_rbtree_insert___spec__3___rarg lt t k v);
      [done|by destruct (l_rbnode_get__color___main___rarg t)..].
Qed.

(** X6: on an ordered tree and for a strict weak ordering, [contains]
    answers true exactly when the tree holds a key that compares neither
    below nor above the key asked for. *)
Theorem contains_spec {K V : Type} (lt : K -> K -> bool) (t : rbnode K V) k :
  strict_weak_order lt -> ordered lt t ->
  l_rbtree_contains___rarg lt t k = true <->
  exists y, y ∈ l_rbtree_to__list___rarg t /\ equiv lt y k.
Proof. intros Hlt Ht. rewrite to_list_keys. by apply contains_keys. Qed.

Lemma contains_spec_witness :
  let t := foldl (l_rbtree_insert___rarg Nat.ltb) leaf [5; 3; 8] in
  strict_weak_order Nat.ltb /\ ordered Nat.ltb t /\
  (l_rbtree_contains___rarg Nat.ltb t 3 = true <->
   exists y, y ∈ l_rbtree_to__list___rarg t /\ equiv Nat.ltb y 3).
Proof.
  assert (H : ordered Nat.ltb (foldl (l_rbtree_insert___rarg Nat.ltb) leaf [5; 3; 8])).
  { unfold ordered, ascending. simpl. repeat constructor. }
  split; [exact ltb_strict_weak_order|]. split; [exact H|].
  exact (contains_spec Nat.ltb _ 3 ltb_strict_weak_order H).
Defined.

(** X7: on an ordered tree, inserting [k] leaves the lookup of every key
    that is not equivalent to [k] as it was. *)
Theorem find_insert_other {K V : Type} (lt : K -> K -> bool) (t : rbnode K V) k v k' :
  strict_weak_order lt -> ordered lt t -> ~ equiv lt k k' ->
  l_rbnode_find__core___main___at_rbtree_find___spec__2___rarg lt
    (l_rbnode_insert___at_rbtree_insert___spec__2___rarg lt t k v) k'
  = l_rbnode_find__core___main___at_rbtree_find___spec__2___rarg lt t k' /\
  l_rbtree_find___rarg lt
    (l_rbnode_insert___at_rbtree_insert___spec__2___rarg lt t k v) k'
  = l_rbtree_find___rarg lt t k'.
Proof.
  intros Hlt Ht Hne.
  assert (find_core lt (rbnode_insert lt t k v) k' = find_core lt t k') as E.
  { rewrite !(find_core_inorder lt Hlt) by (by try apply ordered_insert).
    rewrite (inorder_insert lt Hlt) by done.
    by apply find_list_ins_list_other. }
  split; [done|]. unfold l_rbtree_find___rarg. by rewrite E.
Qed.

Lemma find_insert_other_witness :
  let t := foldl (l_rbtree_insert___rarg Nat.ltb) leaf [5; 3; 8] in
  strict_weak_order Nat.ltb /\ ordered Nat.ltb t /\ ~ equiv Nat.ltb 4 5 /\
  l_rbtree_find___rarg Nat.ltb (l_rbtree_insert___rarg Nat.ltb t 4) 5
  = l_rbtree_find___rarg Nat.ltb t 5.
Proof.
  assert (H : ordered Nat.ltb (foldl (l_rbtree_insert___rarg Nat.ltb) leaf [5; 3; 8])).
  { unfold ordered, ascending. simpl. repeat constructor. }
  assert (Hne : ~ equiv Nat.ltb 4 5) by (intros [??]; discriminate).
  split; [exact ltb_strict_weak_order|]. split; [exact H|]. split; [exact Hne|].
  exact (proj2 (find_insert_other Nat.ltb _ 4 tt 5 ltb_strict_weak_order H Hne)).
Defined.

(** X8: on an ordered tree, the entries of the tree that [insert] returns
    are, in symmetric order, the sorted list of entries of the tree with
    the new entry put in its place, replacing an equivalent key. *)
Theorem insert_inorder {K V : Type} (lt : K -> K -> bool) (t : rbnode K V) k v :
  strict_weak_order lt -> ordered lt t ->
  inorder (l_rbnode_insert___at_rbtree_insert___spec__2___rarg lt t k v)
  = ins_list lt k v (inorder t).
Proof. intros Hlt Ht. by apply inorder_insert. Qed.

Lemma insert_inorder_witness :
  let t := foldl (l_rbtree_insert___rarg Nat.ltb) leaf [5; 3; 8] in
  strict_weak_order Nat.ltb /\ ordered Nat.ltb t /\
  inorder (l_rbtree_insert___rarg Nat.ltb t 4)
  = [(3, tt); (4, tt); (5, tt); (8, tt)].
Proof.
  assert (H : ordered Nat.ltb (foldl (l_rbtree_insert___rarg Nat.ltb) leaf [5; 3; 8])).
  { unfold ordered, ascending. simpl. repeat constructor. }
  split; [exact ltb_strict_weak_order|]. split; [exact H|].
  unfold l_rbtree_insert___rarg at 1.
  rewrite (insert_inorder Nat.ltb _ 4 tt ltb_strict_weak_order H). reflexivity.
Defined.

(** X9: on an ordered tree, [insert] adds one key when the key is not
    contained, and leaves the number of keys as it is when it is. *)
Theorem insert_size {K V : Type} (lt : K -> K -> bool) (t : rbnode K V) k v :
  strict_weak_order lt -> ordered lt t ->
  length (l_rbtree_to__list___rarg
            (l_rbnode_insert___at_rbtree_insert___spec__2___rarg lt t k v))
  = if l_rbtree_contains___rarg lt t k
    then length (l_rbtree_to__list___rarg t)
    else S (length (l_rbtree_to__list___rarg t)).
Proof.
  intros Hlt Ht. rewrite !to_list_keys. unfold keys.
  rewrite !length_fmap, (inorder_insert lt Hlt), ins_list_length by done.
  pose proof (contains_is_Some lt t k) as Hc.
  rewrite (find_core_inorder lt Hlt) in Hc by done.
  destruct (find_list lt k (inorder t)), (l_rbtree_contains___rarg lt t k);
    try done.
  - assert (false = true) by (apply Hc; by eexists). done.
  - by destruct (proj1 Hc eq_refl) as [? ?].
Qed.

Lemma insert_size_witness :
  let t := foldl (l_rbtree_insert___rarg Nat.ltb) leaf [5; 3; 8] in
  strict_weak_order Nat.ltb /\ ordered Nat.ltb t /\
  length (l_rbtree_to__list___rarg (l_rbtree_insert___rarg Nat.ltb t 4)) = 4 /\
  length (l_rbtree_to__list___rarg (l_rbtree_insert___rarg Nat.ltb t 5)) = 3.
Proof.
  assert (H : ordered Nat.ltb (foldl (l_rbtree_insert___rarg Nat.ltb) leaf [5; 3; 8])).
  { unfold ordered, ascending. simpl. repeat constructor. }
  split; [exact ltb_strict_weak_order|]. split; [exact H|].
  unfold l_rbtree_insert___rarg at 1 3. split.
  - rewrite (insert_size Nat.ltb _ 4 tt ltb_strict_weak_order H). reflexivity.
  - rewrite (insert_size Nat.ltb _ 5 tt ltb_strict_weak_order H). reflexivity.
Defined.

(** X10: [of_list] inserts the elements from the last to the first: it
    builds the tree that [from_list] builds from the reversed list. *)
Theorem of_list_from_list {K : Type} (lt : K -> K -> bool) (xs : list K) :
  l_rbtree_of__list___rarg lt xs = l_rbtree_from__list___rarg (reverse xs) lt.
Proof.
  unfold l_rbtree_of__list___rarg, l_rbtree_from__list___rarg.
  induction xs as [|x xs IH]; simpl; [done|].
  by rewrite reverse_cons, list_foldl_app, IH.
Qed.

(** X11: for a strict weak ordering, the tree that [from_list] builds
    lists its keys in ascending order, contains every element of the list
    and holds no key that is not an element of the list. *)
Theorem from_list_spec {K : Type} (lt : K -> K -> bool) (xs : list K) :
  strict_weak_order lt ->
  ascending lt (l_rbtree_to__list___rarg (l_rbtree_from__list___rarg xs lt)) /\
  (forall x, x ∈ xs ->
     l_rbtree_contains___rarg lt (l_rbtree_from__list___rarg xs lt) x = true) /\
  (forall k, k ∈ l_rbtree_to__list___rarg (l_rbtree_from__list___rarg xs lt) ->
     k ∈ xs).
Proof.
  intros Hlt. unfold l_rbtree_from__list___rarg.
  assert (Hleaf : well_formed lt (leaf : rbnode K unit)) by constructor.
  split_and!.
  - rewrite to_list_keys.
    by apply (well_formed_ordered lt Hlt), list_foldl_well_formed.
  - intros x Hx. apply (list_foldl_contains lt Hlt); auto.
  - intros k. rewrite to_list_keys.
    intros [Hk|Hk]%(list_foldl_keys lt Hlt); [|done..].
    by apply elem_of_nil in Hk.
Qed.

Lemma from_list_spec_witness :
  strict_weak_order Nat.ltb /\
  ascending Nat.ltb
    (l_rbtree_to__list___rarg (l_rbtree_from__list___rarg [5; 3; 8; 3; 1] Nat.ltb)) /\
  l_rbtree_to__list___rarg (l_rbtree_from__list___rarg [5; 3; 8; 3; 1] Nat.ltb)
  = [1; 3; 5; 8].
Proof.
  split; [exact ltb_strict_weak_order|]. split; [|reflexivity].
  exact (proj1 (from_list_spec Nat.ltb [5; 3; 8; 3; 1] ltb_strict_weak_order)).
Defined.

(** X12: whatever the comparator, the trees that [from_list] and [of_list]
    build have no red node with a red child and the same number of black
    nodes on every path from the root to a leaf. *)
Theorem from_list_red_black {K : Type} (lt : K -> K -> bool) (xs : list K) :
  (red_red_free (l_rbtree_from__list___rarg xs lt) = true /\
   exists n, forall i, i ∈ black_counts (l_rbtree_from__list___rarg xs lt) -> i = n) /\
  (red_red_free (l_rbtree_of__list___rarg lt xs) = true /\
   exists n, forall i, i ∈ black_counts (l_rbtree_of__list___rarg lt xs) -> i = n).
Proof.
  split.
  - assert (well_formed lt (l_rbtree_from__list___rarg xs lt)) as H
      by (apply list_foldl_well_formed; constructor).
    apply well_formed_red_black in H as (Hrr & _ & n & Hn).
    split; [done|]. exists n. by apply black_height_counts.
  - pose proof (of_list_well_formed lt xs) as H.
    apply well_formed_red_black in H as (Hrr & _ & n & Hn).
    split; [done|]. exists n. by apply black_height_counts.
Qed.

Lemma subset_contains {K V : Type} (lt : K -> K -> bool) (t1 t2 : rbnode K V) :
  strict_weak_order lt -> ordered lt t1 -> ordered lt t2 ->
  l_rbtree_subset___rarg lt t1 t2 = true <->
  forall k, l_rbtree_contains___rarg lt t1 k = true ->
            l_rbtree_contains___rarg lt t2 k = true.
Proof.
  intros Hlt Ht1 Ht2. unfold l_rbtree_subset___rarg.
  rewrite all_subset_spec. split.
  - intros H k Hk.
    apply (contains_keys lt Hlt) in Hk as (y & Hy & Hyk); [|done].
    apply H, find_is_Some, contains_is_Some in Hy.
    apply (contains_keys lt Hlt) in Hy as (z & Hz & Hzy); [|done].
    apply (contains_keys lt Hlt); [done|].
    exists z. split; [done|]. by apply (equiv_trans lt Hlt z y k).
  - intros H k Hk.
    apply find_is_Some, contains_is_Some, H, contains_is_Some, find_is_Some.
    by apply (key_contained lt Hlt).
Qed.

(** X13: for a strict weak ordering and two trees in search order, [seteq]
    is true exactly when the two trees contain the same keys: [contains]
    gives the same answer on both, for every key. *)
Theorem seteq_spec {K V : Type} (lt : K -> K -> bool) (t1 t2 : rbnode K V) :
  strict_weak_order lt -> ordered lt t1 -> ordered lt t2 ->
  l_rbtree_seteq___rarg lt t1 t2 = true <->
  forall k, l_rbtree_contains___rarg lt t1 k = l_rbtree_contains___rarg lt t2 k.
Proof.
  intros Hlt Ht1 Ht2.
  assert (l_rbtree_seteq___rarg lt t1 t2 = true <->
          l_rbtree_subset___rarg lt t1 t2 = true /\
          l_rbtree_subset___rarg lt t2 t1 = true) as ->.
  { unfold l_rbtree_seteq___rarg, l_rbtree_subset___rarg.
    destruct (all_subset lt t2 t1), (all_subset lt t1 t2); simpl; intuition. }
  rewrite !subset_contains by done. split.
  - intros [H12 H21] k. specialize (H12 k). specialize (H21 k).
    destruct (l_rbtree_contains___rarg lt t1 k),
             (l_rbtree_contains___rarg lt t2 k); auto.
    symmetry. auto.
  - intros H. split; intros k; by rewrite H.
Qed.

Lemma seteq_spec_witness :
  let t1 := foldl (l_rbtree_insert___rarg Nat.ltb) leaf [5; 3; 8] in
  let t2 := foldl (l_rbtree_insert___rarg Nat.ltb) leaf [8; 5; 3; 5] in
  strict_weak_order Nat.ltb /\ ordered Nat.ltb t1 /\ ordered Nat.ltb t2 /\
  t1 <> t2 /\
  l_rbtree_seteq___rarg Nat.ltb t1 t2 = true /\
  forall k, l_rbtree_contains___rarg Nat.ltb t1 k
            = l_rbtree_contains___rarg Nat.ltb t2 k.
Proof.
  assert (H1 : ordered Nat.ltb (foldl (l_rbtree_insert___rarg Nat.ltb) leaf [5; 3; 8])).
  { unfold ordered, ascending. simpl. repeat constructor. }
  assert (H2 : ordered Nat.ltb
                 (foldl (l_rbtree_insert___rarg Nat.ltb) leaf [8; 5; 3; 5])).
  { unfold ordered, ascending. simpl. repeat constructor. }
  split; [exact ltb_strict_weak_order|]. split; [exact H1|]. split; [exact H2|].
  split; [discriminate|]. split; [reflexivity|].
  exact (proj1 (seteq_spec Nat.ltb _ _ ltb_strict_weak_order H1 H2) eq_refl).
Defined.

(** X14: for a strict weak ordering, an ordered tree is included in
    itself and equal to itself as a set. *)
Theorem subset_refl {K V : Type} (lt : K -> K -> bool) (t : rbnode K V) :
  strict_weak_order lt -> ordered lt t ->
  l_rbtree_subset___rarg lt t t = true /\ l_rbtree_seteq___rarg lt t t = true.
Proof.
  intros Hlt Ht.
  assert (l_rbtree_subset___rarg lt t t = true) as H.
  { apply all_subset_spec. intros k Hk. by apply (key_contained lt Hlt). }
  split; [done|]. unfold l_rbtree_seteq___rarg, l_rbtree_subset___rarg in *.
  by rewrite H.
Qed.

Lemma subset_refl_witness :
  let t := foldl (l_rbtree_insert___rarg Nat.ltb) leaf [5; 3; 8] in
  strict_weak_order Nat.ltb /\ ordered Nat.ltb t /\
  l_rbtree_subset___rarg Nat.ltb t t = true /\
  l_rbtree_seteq___rarg Nat.ltb t t = true.
Proof.
  assert (H : ordered Nat.ltb (foldl (l_rbtree_insert___rarg Nat.ltb) leaf [5; 3; 8])).
  { unfold ordered, ascending. simpl. repeat constructor. }
  split; [exact ltb_strict_weak_order|]. split; [exact H|].
  exact (subset_refl Nat.ltb _ ltb_strict_weak_order H).
Defined.

(** X15: for a strict weak ordering, inclusion of ordered trees is
    transitive. *)
Theorem subset_trans {K V : Type} (lt : K -> K -> bool) (t1 t2 t3 : rbnode K V) :
  strict_weak_order lt -> ordered lt t2 -> ordered lt t3 ->
  l_rbtree_subset___rarg lt t1 t2 = true ->
  l_rbtree_subset___rarg lt t2 t3 = true ->
  l_rbtree_subset___rarg lt t1 t3 = true.
Proof.
  intros Hlt Ht2 Ht3. unfold l_rbtree_subset___rarg.
  rewrite !all_subset_spec. intros H12 H23 k Hk.
  apply find_is_Some, contains_is_Some, (contains_keys lt Hlt); [done|].
  apply H12, find_is_Some, contains_is_Some in Hk.
  apply (contains_keys lt Hlt) in Hk as (y & Hy & Hyk); [|done].
  apply H23, find_is_Some, contains_is_Some in Hy.
  apply (contains_keys lt Hlt) in Hy as (z & Hz & Hzy); [|done].
  exists z. split; [done|]. by apply (equiv_trans lt Hlt z y k).
Qed.

Lemma subset_trans_witness :
  let a := foldl (l_rbtree_insert___rarg Nat.ltb) leaf [3] in
  let b := foldl (l_rbtree_insert___rarg Nat.ltb) leaf [5; 3] in
  let c := foldl (l_rbtree_insert___rarg Nat.ltb) leaf [5; 3; 8] in
  strict_weak_order Nat.ltb /\ ordered Nat.ltb b /\ ordered Nat.ltb c /\
  l_rbtree_subset___rarg Nat.ltb a b = true /\
  l_rbtree_subset___rarg Nat.ltb b c = true /\
  l_rbtree_subset___rarg Nat.ltb a c = true.
Proof.
  assert (Hb : ordered Nat.ltb (foldl (l_rbtree_insert___rarg Nat.ltb) leaf [5; 3])).
  { unfold ordered, ascending. simpl. repeat constructor. }
  assert (Hc : ordered Nat.ltb (foldl (l_rbtree_insert___rarg Nat.ltb) leaf [5; 3; 8])).
  { unfold ordered, ascending. simpl. repeat constructor. }
  split; [exact ltb_strict_weak_order|]. split; [exact Hb|]. split; [exact Hc|].
  split; [reflexivity|]. split; [reflexivity|].
  exact (subset_trans Nat.ltb
           (foldl (l_rbtree_insert___rarg Nat.ltb) leaf [3]) _ _
           ltb_strict_weak_order Hb Hc eq_refl eq_refl).
Defined.

(** X16: for a strict weak ordering, an ordered tree is included in the
    tree that [insert] returns for it, and the converse inclusion fails
    when the key inserted was not contained. *)
Theorem subset_insert {K V : Type} (lt : K -> K -> bool) (t : rbnode K V) k v :
  strict_weak_order lt -> ordered lt t ->
  l_rbtree_subset___rarg lt t
    (l_rbnode_insert___at_rbtree_insert___spec__2___rarg lt t k v) = true /\
  (l_rbtree_contains___rarg lt t k = false ->
   l_rbtree_subset___rarg lt
     (l_rbnode_insert___at_rbtree_insert___spec__2___rarg lt t k v) t = false).
Proof.
  intros Hlt Ht. unfold l_rbtree_subset___rarg. split.
  - apply all_subset_spec. intros y Hy.
    apply find_is_Some, contains_is_Some, (contains_insert_mono lt Hlt); [done|].
    apply contains_is_Some, find_is_Some. by apply (key_contained lt Hlt).
  - intros Hk. apply not_true_is_false. intros H.
    rewrite all_subset_spec in H.
    assert (k ∈ keys (rbnode_insert lt t k v)) as Hin.
    { unfold keys. rewrite (inorder_insert lt Hlt) by done. apply ins_list_key_in. }
    apply H, find_is_Some, contains_is_Some in Hin. congruence.
Qed.

Lemma subset_insert_witness :
  let t := foldl (l_rbtree_insert___rarg Nat.ltb) leaf [5; 3; 8] in
  strict_weak_order Nat.ltb /\ ordered Nat.ltb t /\
  l_rbtree_contains___rarg Nat.ltb t 4 = false /\
  l_rbtree_subset___rarg Nat.ltb t (l_rbtree_insert___rarg Nat.ltb t 4) = true /\
  l_rbtree_subset___rarg Nat.ltb (l_rbtree_insert___rarg Nat.ltb t 4) t = false.
Proof.
  assert (H : ordered Nat.ltb (foldl (l_rbtree_insert___rarg Nat.ltb) leaf [5; 3; 8])).
  { unfold ordered, ascending. simpl. repeat constructor. }
  pose proof (subset_insert Nat.ltb _ 4 tt ltb_strict_weak_order H) as [H1 H2].
  split; [exact ltb_strict_weak_order|]. split; [exact H|].
  split; [reflexivity|]. split; [exact H1|exact (H2 eq_refl)].
Defined.

End RBTreeOpsFacts.

(** ** Part 8: more properties of the bounded fixpoints *)

Module FixOpsFacts.
Import Fix FixOps.

Lemma bfix2_curry {A1 A2 B : Type} (base : A1 -> A2 -> B)
    (rec : (A1 -> A2 -> B) -> A1 -> A2 -> B) n :
  l_bfix_u_2082___main___rarg base rec n =
  fun a b =>
    l_bfix___main___rarg (fun p => base p.1 p.2)
      (fun k p => rec (fun x y => k (x, y)) p.1 p.2) n (a, b).
Proof.
  induction n as [|n IH]; [done|].
  change (rec (l_bfix_u_2082___main___rarg base rec n) =
          rec (fun x y =>
                 l_bfix___main___rarg (fun p => base p.1 p.2)
                   (fun k p => rec (fun x y => k (x, y)) p.1 p.2) n (x, y))).
  by rewrite IH.
Qed.

Lemma bfix3_curry {A1 A2 A3 B : Type} (base : A1 -> A2 -> A3 -> B)
    (rec : (A1 -> A2 -> A3 -> B) -> A1 -> A2 -> A3 -> B) n :
  l_bfix_u_2083___main___rarg base rec n =
  fun a b c =>
    l_bfix___main___rarg (fun p => base p.1.1 p.1.2 p.2)
      (fun k p => rec (fun x y z => k (x, y, z)) p.1.1 p.1.2 p.2) n (a, b, c).
Proof.
  induction n as [|n IH]; [done|].
  change (rec (l_bfix_u_2083___main___rarg base rec n) =
          rec (fun x y z =>
                 l_bfix___main___rarg (fun p => base p.1.1 p.1.2 p.2)
                   (fun k p => rec (fun x y z => k (x, y, z)) p.1.1 p.1.2 p.2)
                   n (x, y, z))).
  by rewrite IH.
Qed.

(** *** Main results *)

(** X17: when the step only calls its continuation on arguments of smaller
    measure, [bfix] with more fuel than the measure of the argument does
    not depend on the base case nor on how much more fuel there is. *)
Theorem bfix_enough_fuel {A B : Type} (size : A -> nat)
    (base base' : A -> B) (step : (A -> B) -> A -> B) :
  (forall k1 k2 x,
     (forall y, size y < size x -> k1 y = k2 y) -> step k1 x = step k2 x) ->
  forall n n' x, size x < n -> size x < n' ->
    l_bfix___main___rarg base step n x = l_bfix___main___rarg base' step n' x.
Proof.
  intros Hstep n. induction n as [|n IH]; intros n' x Hn Hn'; [lia|].
  destruct n' as [|n']; [lia|]. simpl.
  apply Hstep. intros y Hy. apply IH; lia.
Qed.

Lemma bfix_enough_fuel_witness :
  (forall k1 k2 x,
     (forall y, y < x -> k1 y = k2 y) -> factorial_step k1 x = factorial_step k2 x) /\
  l_bfix___main___rarg (fun _ => 0) factorial_step 5 4
  = l_bfix___main___rarg (fun _ => 7) factorial_step 9 4.
Proof.
  assert (H : forall k1 k2 x,
    (forall y, id y < id x -> k1 y = k2 y) -> factorial_step k1 x = factorial_step k2 x).
  { intros k1 k2 [|p] Hk; simpl; [reflexivity|]. rewrite (Hk p); [reflexivity|].
    unfold id. lia. }
  split; [exact H|].
  apply (bfix_enough_fuel id (fun _ => 0) (fun _ => 7) factorial_step H 5 9 4);
    unfold id; lia.
Defined.

(** X18: the bounded fixpoints of two and of three arguments are the
    bounded fixpoint of one argument on pairs and on triples. *)
Theorem bfix_several_arguments {A1 A2 A3 B : Type} :
  (forall (base : A1 -> A2 -> B) (rec : (A1 -> A2 -> B) -> A1 -> A2 -> B) n a b,
     l_bfix_u_2082___main___rarg base rec n a b =
     l_bfix___main___rarg (fun p => base p.1 p.2)
       (fun k p => rec (fun x y => k (x, y)) p.1 p.2) n (a, b)) /\
  (forall (base : A1 -> A2 -> A3 -> B)
          (rec : (A1 -> A2 -> A3 -> B) -> A1 -> A2 -> A3 -> B) n a b c,
     l_bfix_u_2083___main___rarg base rec n a b c =
     l_bfix___main___rarg (fun p => base p.1.1 p.1.2 p.2)
       (fun k p => rec (fun x y z => k (x, y, z)) p.1.1 p.1.2 p.2) n (a, b, c)).
Proof.
  split.
  - intros base rec n a b. by rewrite bfix2_curry.
  - intros base rec n a b c. by rewrite bfix3_curry.
Qed.

End FixOpsFacts.

(** ** Part 9: more properties of the backward-lemma index *)

Module BackwardLemmasMoreFacts.
Import BackwardLemmas BackwardLemmasFacts.

Lemma strip_pis_not_pi ctx fuel n ty ty' :
  strip_pis ctx fuel n ty = Some ty' -> is_pi ty' = false.
Proof.
  revert n ty. induction fuel as [|fuel IH]; intros n ty; simpl.
  - destruct (is_pi ty) eqn:E; [done|]. by intros [= <-].
  - destruct (is_pi ty) eqn:E; [apply IH|]. by intros [= <-].
Qed.

Lemma strip_pis_more_fuel ctx fuel fuel' n ty ty' :
  strip_pis ctx fuel n ty = Some ty' -> fuel <= fuel' ->
  strip_pis ctx fuel' n ty = Some ty'.
Proof.
  revert fuel' n ty. induction fuel as [|fuel IH]; intros fuel' n ty; simpl.
  - destruct (is_pi ty) eqn:E; [done|]. intros [= <-] _.
    destruct fuel'; simpl; by rewrite E.
  - destruct (is_pi ty) eqn:E.
    + intros H Hle. destruct fuel' as [|fuel']; [lia|]. simpl. rewrite E.
      apply IH; [done|lia].
    + intros [= <-] _. destruct fuel'; simpl; by rewrite E.
Qed.

Section Constructor.
Variable LEAN_DEFAULT_PRIORITY : nat.

Local Abbreviation constant_keys m :=
  (forall h, hi_kind h <> Constant -> m_map m !! h = None).

Lemma index_loop_constant_keys ctx fuel lemmas i m log m' log' :
  constant_keys m ->
  index_loop LEAN_DEFAULT_PRIORITY ctx fuel lemmas i m log = value m' log' ->
  constant_keys m'.
Proof.
  revert m log. induction i as [|i IH]; intros m log Hm; simpl.
  - by intros [= <- _].
  - destruct (lemmas !! i) as [c|]; [|by intros [= <- _]].
    unfold bind. destruct (get_backward_target_of_name ctx fuel c log)
      as [[h|] log1| |]; try done.
    + destruct (bool_decide (hi_kind h = Constant)) eqn:E; simpl; [|by apply IH].
      apply bool_decide_eq_true in E. apply IH.
      intros h' Hh'. simpl. rewrite lookup_insert_ne by congruence. by apply Hm.
    + by apply IH.
Qed.

End Constructor.

(** *** Main results *)

(** X19: the type that the binder-stripping loop of [get_backward_target]
    ends with is never a [Pi], and it is the same for every larger bound on
    the number of iterations; a type that is no [Pi] is returned as it is. *)
Theorem strip_pis_spec ctx fuel n ty :
  (forall ty', strip_pis ctx fuel n ty = Some ty' ->
     is_pi ty' = false /\
     forall fuel', fuel <= fuel' -> strip_pis ctx fuel' n ty = Some ty') /\
  (is_pi ty = false -> strip_pis ctx fuel n ty = Some ty).
Proof.
  split.
  - intros ty' H. split; [by eapply strip_pis_not_pi|].
    intros fuel' Hle. by eapply strip_pis_more_fuel.
  - intros E. destruct fuel; simpl; by rewrite E.
Qed.

Lemma strip_pis_spec_witness :
  strip_pis example_ctx 1 0 (declaration_type example_ctx "hd")
    = Some (mk_app (mk_local "x") mk_sort) /\
  strip_pis example_ctx 7 0 (declaration_type example_ctx "hd")
    = Some (mk_app (mk_local "x") mk_sort).
Proof.
  split; [reflexivity|].
  apply (proj1 (strip_pis_spec example_ctx 1 0 (declaration_type example_ctx "hd"))
           (mk_app (mk_local "x") mk_sort) eq_refl). lia.
Defined.

Lemma get_app_fn_foldl f args :
  get_app_fn (foldl mk_app f args) = get_app_fn f.
Proof.
  revert f. induction args as [|a args IH]; intros f; simpl; [done|].
  by rewrite IH.
Qed.

(** X20: for a type that, once its binders are stripped, is [f] applied to
    any number of arguments, [f] not an application, [get_backward_target]
    returns the head of the constant [c] when [f] is the constant [c], the
    head of the local [x] when [f] is the local [x], and no target for any
    other [f]; it raises nothing and requests no trace. *)
Theorem get_backward_target_spec ctx fuel ty f args log :
  strip_pis ctx fuel 0 ty = Some (foldl mk_app f args) -> kind f <> App ->
  get_backward_target ctx fuel ty log =
  value match f with
        | mk_constant c => Some (mk_head_index Constant c)
        | mk_local x => Some (mk_head_index Local x)
        | _ => None
        end log.
Proof.
  intros Hs Hf. unfold get_backward_target. rewrite Hs, get_app_fn_foldl.
  by destruct f.
Qed.

Lemma get_backward_target_spec_witness :
  strip_pis example_ctx 5 0 (declaration_type example_ctx "p10")
    = Some (foldl mk_app (mk_constant "Foo") [mk_local "x"]) /\
  get_backward_target example_ctx 5 (declaration_type example_ctx "p10") []
    = value (Some Foo) [] /\
  get_backward_target example_ctx 5 (declaration_type example_ctx "hd") []
    = value (Some (mk_head_index Local "x")) [] /\
  get_backward_target example_ctx 5 (infer example_ctx (mk_local "g")) []
    = value None [].
Proof.
  split; [reflexivity|]. split; [|split].
  - apply (get_backward_target_spec example_ctx 5
             (declaration_type example_ctx "p10")
             (mk_constant "Foo") [mk_local "x"] [] eq_refl). discriminate.
  - apply (get_backward_target_spec example_ctx 5
             (declaration_type example_ctx "hd")
             (mk_local "x") [mk_sort] [] eq_refl). discriminate.
  - apply (get_backward_target_spec example_ctx 5
             (infer example_ctx (mk_local "g"))
             (mk_metavar "m") [mk_sort] [] eq_refl). discriminate.
Defined.

(** X21: the handler of the attribute and the constructor agree: a
    declaration whose head is a constant is accepted by the handler and
    filed by the loop of the constructor without a trace; any other is
    refused by the handler and skipped by the loop with a trace. *)
Theorem handler_agrees_with_constructor (LEAN_DEFAULT_PRIORITY : nat)
    {environment : Type} (env : environment) ctx fuel lemmas i c m log :
  lemmas !! i = Some c ->
  is_Some (strip_pis ctx fuel 0 (try_to_pi ctx (declaration_type ctx c))) ->
  match constant_target ctx fuel c with
  | Some h =>
      intro_attribute_handler env ctx fuel c log = value env log /\
      index_loop LEAN_DEFAULT_PRIORITY ctx fuel lemmas (S i) m log =
      index_loop LEAN_DEFAULT_PRIORITY ctx fuel lemmas i
        (head_map_insert LEAN_DEFAULT_PRIORITY h (lemma_of_name c) m) log
  | None =>
      intro_attribute_handler env ctx fuel c log
      = raised (invalid_intro_message c) log /\
      index_loop LEAN_DEFAULT_PRIORITY ctx fuel lemmas (S i) m log =
      index_loop LEAN_DEFAULT_PRIORITY ctx fuel lemmas i m
        (log ++ [(back_chaining, discard_message c)])
  end.
Proof.
  intros Hc Hfuel.
  rewrite (index_loop_step LEAN_DEFAULT_PRIORITY ctx fuel lemmas i c m log Hc Hfuel).
  unfold index_step, discard_traces. rewrite filter_cons, filter_nil.
  destruct Hfuel as [ty Hty].
  unfold intro_attribute_handler, bind, get_backward_target_of_name,
    get_backward_target, constant_target.
  rewrite Hty. simpl.
  destruct (is_constant (get_app_fn ty)) eqn:Hfn; simpl.
  - rewrite app_nil_r. split; [|done].
    apply is_constant_kind in Hfn. rewrite Hfn.
    by rewrite bool_decide_eq_true_2.
  - split; [|done].
    destruct (is_local (get_app_fn ty)) eqn:Hloc; simpl; [|done].
    rewrite bool_decide_eq_false_2; [done|].
    intros Hk. apply is_constant_kind in Hk. congruence.
Qed.

Lemma handler_agrees_with_constructor_witness :
  intro_instances example_ctx !! 1 = Some "hd" /\
  intro_attribute_handler tt example_ctx 5 "hd" []
  = raised (invalid_intro_message "hd") [] /\
  intro_attribute_handler tt example_ctx 5 "p10" [] = value tt [].
Proof.
  split; [reflexivity|].
  pose proof (handler_agrees_with_constructor 1000 tt example_ctx 5
                (intro_instances example_ctx) 1 "hd"
                {| m_prios := ∅; m_map := ∅ |} []
                eq_refl (ex_intro _ _ eq_refl)) as H1.
  pose proof (handler_agrees_with_constructor 1000 tt example_ctx 5
                (intro_instances example_ctx) 2 "p10"
                {| m_prios := ∅; m_map := ∅ |} []
                eq_refl (ex_intro _ _ eq_refl)) as H2.
  split; [exact (proj1 H1)|exact (proj1 H2)].
Defined.

(** X22: the constructor files declarations under constant heads only: in
    the index it returns, [find] is empty for every head that is not a
    constant. *)
Theorem constructor_constant_heads (LEAN_DEFAULT_PRIORITY : nat)
    ctx fuel log idx log' h :
  mk_backward_lemma_index LEAN_DEFAULT_PRIORITY ctx fuel log = value idx log' ->
  hi_kind h <> Constant -> find idx h = [].
Proof.
  unfold mk_backward_lemma_index, bind. intros Hmk Hh.
  destruct (index_loop _ _ _ _ _ _ _) as [m log1| |] eqn:E; try done.
  injection Hmk as <- _. unfold find, head_map_find. simpl.
  erewrite (index_loop_constant_keys _ _ _ _ _ _ _ _ _ _ E); [done|done].
  Unshelve. intros h' _. simpl. apply lookup_empty.
Qed.

Lemma constructor_constant_heads_witness :
  mk_backward_lemma_index 1000 example_ctx 5 []
    = value example_index [(back_chaining, discard_message "hd")] /\
  find example_index (mk_head_index Local "x") = [].
Proof.
  assert (H : mk_backward_lemma_index 1000 example_ctx 5 []
              = value example_index [(back_chaining, discard_message "hd")])
    by (vm_compute; reflexivity).
  split; [exact H|].
  apply (constructor_constant_heads 1000 example_ctx 5 [] example_index _
           (mk_head_index Local "x") H). discriminate.
Defined.

End BackwardLemmasMoreFacts.
